(** * The doctor-directory builder (scripts/build_doctor_directory.py)

    A shallow embedding of the extraction pipeline: the text helpers
    ([normalize_whitespace], [split_multi_value]), the row classifier
    ([looks_like_doctor]), the specialty inferrer ([infer_specialty]) and
    the scan loop of [build_directory] with its identity key and its
    merge of repeated identities.

    Text.  A Python [str] is a sequence of code points.  The embedding
    takes the code points below 256: a character is an [ascii] read as
    the code point [N_of_ascii c], and a string is a [list ascii].  On
    that range the classes Python uses are
    - whitespace ([str.split()], [\s]): 9-13, 28-32, 133, 160;
    - decimal digit ([\d]): 48-57;
    - [str.lower()]: 65-90 and 192-222 except 215 move up by 32.
    Cells of the sheet are text cells, empty cells, or absent. *)

From Stdlib Require Import Ascii String ZArith NArith Bool Lia List.
From Stdlib Require Import Sorted Permutation.
Import ListNotations.

Definition str := list ascii.

(** String literals of the source, as [str]. *)
Definition lit (x : string) : str := list_ascii_of_string x.

Definition str_eq_dec : forall a b : str, {a = b} + {a <> b} :=
  list_eq_dec ascii_dec.

Definition str_eqb (a b : str) : bool :=
  if str_eq_dec a b then true else false.

(** ** Character classes *)

Definition code (c : ascii) : N := N_of_ascii c.

Definition in_range (lo hi : N) (c : ascii) : bool :=
  (N.leb lo (code c) && N.leb (code c) hi)%bool.

(** [str.isspace] on one character; also the class [\s] of [re]. *)
Definition isspace (c : ascii) : bool :=
  in_range 9 13 c || in_range 28 32 c
  || N.eqb (code c) 133 || N.eqb (code c) 160.

(** The class [\d] of [re]. *)
Definition isdigit (c : ascii) : bool := in_range 48 57 c.

Definition is_upper (c : ascii) : bool :=
  in_range 65 90 c || (in_range 192 222 c && negb (N.eqb (code c) 215)).

Definition lower_char (c : ascii) : ascii :=
  if is_upper c then ascii_of_N (code c + 32) else c.

(** [s.lower()] *)
Definition lower (s : str) : str := map lower_char s.

(** ** Splitting, joining, stripping, searching *)

Definition nonempty (s : str) : bool :=
  match s with [] => false | _ :: _ => true end.

Definition cons_head (c : ascii) (l : list str) : list str :=
  match l with
  | [] => [[c]]
  | w :: ws => (c :: w) :: ws
  end.

(** [re.split] with a pattern [[...]+], a run of one or more characters
    of the class [sep].  The result lists the pieces between the maximal
    runs, the empty piece before a leading run and after a trailing run
    included.  [in_run] tells that the previous character was a
    separator; the head of the result is the piece being read. *)
Fixpoint split_runs (sep : ascii -> bool) (in_run : bool) (s : str)
  : list str :=
  match s with
  | [] => [[]]
  | c :: s' =>
      if sep c then
        if in_run then split_runs sep true s'
        else [] :: split_runs sep true s'
      else cons_head c (split_runs sep false s')
  end.

Definition re_split (sep : ascii -> bool) (s : str) : list str :=
  split_runs sep false s.

(** [s.split()]: runs of whitespace are one separator, and no empty
    string is returned at either end. *)
Definition str_split (s : str) : list str :=
  filter nonempty (re_split isspace s).

(** [sep.join(l)] *)
Fixpoint join (sep : str) (l : list str) : str :=
  match l with
  | [] => []
  | x :: rest =>
      match rest with
      | [] => x
      | _ :: _ => x ++ sep ++ join sep rest
      end
  end.

Fixpoint lstrip (p : ascii -> bool) (s : str) : str :=
  match s with
  | [] => []
  | c :: s' => if p c then lstrip p s' else s
  end.

Definition rstrip (p : ascii -> bool) (s : str) : str :=
  rev (lstrip p (rev s)).

(** [s.strip(chars)], with [p] the membership test of [chars]. *)
Definition strip (p : ascii -> bool) (s : str) : str :=
  rstrip p (lstrip p s).

Fixpoint startswith (p s : str) : bool :=
  match p, s with
  | [], _ => true
  | _ :: _, [] => false
  | a :: p', b :: s' => Ascii.eqb a b && startswith p' s'
  end.

(** [kw in s] on strings. *)
Fixpoint contains (kw s : str) : bool :=
  startswith kw s
  || match s with
     | [] => false
     | _ :: s' => contains kw s'
     end.

(** ** Tables *)

Definition BLOCK_KEYWORDS : list str :=
  map lit
    [ "hospital"; "medical"; "clinic"; "company"; "co."; "est";
      "contracting"; "insurance"; "drops"; "tablet"; "capsule";
      "solution"; "syrup"; "pharma"; "laboratory"; "lab"; "finance";
      "statement"; "analysis"; "services"; "provider"; "bupa"; "tawnia";
      "claim"; "eligibility"; "response"; "direct"; "copy" ]%string.

Definition SPECIALTY_KEYWORDS : list (str * str) :=
  map (fun p => (lit (fst p), lit (snd p)))
    [ ("cardio", "Cardiology");
      ("derma", "Dermatology");
      ("dermato", "Dermatology");
      ("neuro", "Neurology");
      ("nephro", "Nephrology");
      ("pulmo", "Pulmonology");
      ("gastro", "Gastroenterology");
      ("endo", "Endocrinology");
      ("onco", "Oncology");
      ("pedi", "Pediatrics");
      ("ortho", "Orthopedics");
      ("psy", "Psychiatry");
      ("ophth", "Ophthalmology");
      ("ent", "Otolaryngology");
      ("uro", "Urology");
      ("obst", "Obstetrics & Gynecology");
      ("gyn", "Obstetrics & Gynecology") ]%string.

(** The placeholder labels of [looks_like_doctor]. *)
Definition PLACEHOLDERS : list str :=
  map lit [ "doctor name"; "name"; "(blank)" ]%string.

(** ** The text helpers *)

Definition normalize_whitespace (value : str) : str :=
  join (lit " ") (str_split value).

(** The characters of [" ;"]. *)
Definition space_or_semi (c : ascii) : bool :=
  Ascii.eqb c " " || Ascii.eqb c ";".

(** The class [[;\n]]. *)
Definition semi_or_newline (c : ascii) : bool :=
  Ascii.eqb c ";" || N.eqb (code c) 10.

Definition split_multi_value (value : str) : list str :=
  match value with
  | [] => []
  | _ :: _ =>
      let parts := re_split semi_or_newline value in
      map (fun part => normalize_whitespace (strip space_or_semi part))
          (filter (fun part => nonempty (strip space_or_semi part)) parts)
  end.

(** The class [[-,\s]]. *)
Definition token_sep (c : ascii) : bool :=
  Ascii.eqb c "-" || Ascii.eqb c "," || isspace c.

Definition name_tokens (normalized : str) : list str :=
  filter nonempty (re_split token_sep normalized).

Definition looks_like_doctor (name : str) : bool :=
  match name with
  | [] => false
  | _ :: _ =>
      let normalized := normalize_whitespace name in
      let lower := lower normalized in
      if existsb (str_eqb lower) PLACEHOLDERS then false
      else if existsb (fun keyword => contains keyword lower) BLOCK_KEYWORDS
      then false
      else if existsb isdigit normalized then false
      else Nat.leb 2 (length (name_tokens normalized))
  end.

Fixpoint first_specialty (table : list (str * str)) (combined : str)
  : str :=
  match table with
  | [] => lit "General Practice"
  | (keyword, specialty) :: rest =>
      if contains keyword combined then specialty
      else first_specialty rest combined
  end.

Definition infer_specialty (fields : list str) : str :=
  let combined := join (lit " ") (map lower (filter nonempty fields)) in
  first_specialty SPECIALTY_KEYWORDS combined.

(** ** [hashlib.sha1] and [str.encode("utf-8")]

    The digest of the standard library, on bytes as [Z] and 32-bit
    words as [Z] with the wrap-around written out (FIPS 180-4). *)

Module Sha1.
Local Open Scope Z_scope.

Definition mask32 : Z := 0xFFFFFFFF.

Definition add32 (a b : Z) : Z := Z.land (a + b) mask32.

Definition rotl (n x : Z) : Z :=
  Z.land (Z.lor (Z.shiftl x n) (Z.shiftr x (32 - n))) mask32.

Definition not32 (x : Z) : Z := Z.lxor x mask32.

Definition f (t b c d : Z) : Z :=
  if t <? 20 then Z.lor (Z.land b c) (Z.land (not32 b) d)
  else if t <? 40 then Z.lxor (Z.lxor b c) d
  else if t <? 60 then
    Z.lor (Z.lor (Z.land b c) (Z.land b d)) (Z.land c d)
  else Z.lxor (Z.lxor b c) d.

Definition K (t : Z) : Z :=
  if t <? 20 then 0x5A827999
  else if t <? 40 then 0x6ED9EBA1
  else if t <? 60 then 0x8F1BBCDC
  else 0xCA62C1D6.

(** Big-endian bytes of [x], [n] of them. *)
Fixpoint be_bytes (n : nat) (x : Z) : list Z :=
  match n with
  | O => []
  | S n' => Z.land (Z.shiftr x (8 * Z.of_nat n')) 0xFF :: be_bytes n' x
  end.

Definition pad (msg : list Z) : list Z :=
  let len := Z.of_nat (length msg) in
  let zeros := Z.to_nat ((55 - len) mod 64) in
  msg ++ [0x80] ++ repeat 0 zeros ++ be_bytes 8 (8 * len).

Fixpoint chunks (fuel : nat) (size : nat) (l : list Z) : list (list Z) :=
  match fuel with
  | O => []
  | S fuel' =>
      match l with
      | [] => []
      | _ :: _ => firstn size l :: chunks fuel' size (skipn size l)
      end
  end.

Definition be_word (bytes : list Z) : Z :=
  fold_left (fun acc b => Z.lor (Z.shiftl acc 8) b) bytes 0.

Definition block_words (block : list Z) : list Z :=
  map be_word (chunks 16 4 block).

Definition extend (w : list Z) : list Z :=
  let t := length w in
  let at_ (k : nat) := nth (t - k) w 0 in
  w ++ [rotl 1 (Z.lxor (Z.lxor (Z.lxor (at_ 3%nat) (at_ 8%nat))
                               (at_ 14%nat)) (at_ 16%nat))].

Definition schedule (block : list Z) : list Z :=
  Nat.iter 64 extend (block_words block).

Record state := State { h0 : Z; h1 : Z; h2 : Z; h3 : Z; h4 : Z }.

Definition init : state :=
  State 0x67452301 0xEFCDAB89 0x98BADCFE 0x10325476 0xC3D2E1F0.

Definition round (s : state) (tw : nat * Z) : state :=
  let t := Z.of_nat (fst tw) in
  let temp :=
    add32 (add32 (add32 (add32 (rotl 5 (h0 s)) (f t (h1 s) (h2 s) (h3 s)))
                        (h4 s)) (K t)) (snd tw) in
  State temp (h0 s) (rotl 30 (h1 s)) (h2 s) (h3 s).

Definition compress (s : state) (block : list Z) : state :=
  let w := schedule block in
  let r := fold_left round (combine (seq 0 80) w) s in
  State (add32 (h0 s) (h0 r)) (add32 (h1 s) (h1 r)) (add32 (h2 s) (h2 r))
        (add32 (h3 s) (h3 r)) (add32 (h4 s) (h4 r)).

Definition digest (msg : list Z) : state :=
  let padded := pad msg in
  fold_left compress (chunks (length padded) 64 padded) init.

Definition hex_digit (n : Z) : ascii :=
  nth (Z.to_nat n) (lit "0123456789abcdef") "0"%char.

Definition hex_word (w : Z) : str :=
  map (fun sh => hex_digit (Z.land (Z.shiftr w sh) 15))
      [28; 24; 20; 16; 12; 8; 4; 0].

(** [hashlib.sha1(msg).hexdigest()] *)
Definition hexdigest (msg : list Z) : str :=
  let s := digest msg in
  hex_word (h0 s) ++ hex_word (h1 s) ++ hex_word (h2 s)
  ++ hex_word (h3 s) ++ hex_word (h4 s).
End Sha1.

(** [s.encode("utf-8")] for code points below 256: one byte below 128,
    two bytes from 128 on. *)
Definition utf8_char (c : ascii) : list Z :=
  let n := Z.of_N (code c) in
  if (n <? 128)%Z then [n]
  else [Z.lor 0xC0 (Z.shiftr n 6); Z.lor 0x80 (Z.land n 0x3F)]%Z.

Definition encode_utf8 (s : str) : list Z := flat_map utf8_char s.

(** ** Sorting a set of strings

    Python compares strings code point by code point. *)

Fixpoint str_compare (a b : str) : comparison :=
  match a, b with
  | [], [] => Eq
  | [], _ :: _ => Lt
  | _ :: _, [] => Gt
  | x :: a', y :: b' =>
      match N.compare (code x) (code y) with
      | Eq => str_compare a' b'
      | Lt => Lt
      | Gt => Gt
      end
  end.

Definition str_lt (a b : str) : Prop := str_compare a b = Lt.

Definition str_leb (a b : str) : bool :=
  match str_compare a b with Gt => false | _ => true end.

Fixpoint insert_sorted (x : str) (l : list str) : list str :=
  match l with
  | [] => [x]
  | y :: t => if str_leb x y then x :: l else y :: insert_sorted x t
  end.

(** [sorted(l)] *)
Definition sorted (l : list str) : list str :=
  fold_right insert_sorted [] l.

(** The set display [{*a, *b}]: a set is kept as a listing of its
    elements without repetition.  Python fixes no order for it; [sorted]
    makes the result independent of the listing
    ([sorted_listing_irrelevant] below). *)
Definition set_of (a b : list str) : list str :=
  nodup str_eq_dec (a ++ b).

(** [sorted({*a, *b})] *)
Definition sorted_union (a b : list str) : list str :=
  sorted (set_of a b).

(** ** The sheet and the entries *)

(** A cell of a row: an object that tests false ([NoCell]), a cell whose
    [value] is [None] ([EmptyCell]), or a cell holding text, for which
    [str(cell.value)] is the text.  A value that is not text (a number,
    a date) is outside the embedding. *)
Inductive Cell :=
| NoCell
| EmptyCell
| TextCell (value : str).

Definition Row := list Cell.
Definition Table := list Row.
Definition Sheet := list Table.
Definition Document := list Sheet.

Record Entry := mkEntry {
  e_id : str;
  e_name : str;
  e_specialty : str;
  e_contacts : list str;
  e_credentials : list str;
  e_registrationNumbers : list str;
  e_sourceFile : str
}.

(** The dict [entries]: keys in first-insertion order. *)
Definition dict := list (str * Entry).

Fixpoint dict_get (k : str) (d : dict) : option Entry :=
  match d with
  | [] => None
  | (k', v) :: rest => if str_eqb k k' then Some v else dict_get k rest
  end.

(** [d[k] = v]: the value is replaced where the key stands, a new key
    goes to the end. *)
Fixpoint dict_set (k : str) (v : Entry) (d : dict) : dict :=
  match d with
  | [] => [(k, v)]
  | (k', v') :: rest =>
      if str_eqb k k' then (k, v) :: rest else (k', v') :: dict_set k v rest
  end.

Definition dict_keys (d : dict) : list str := map fst d.
Definition dict_values (d : dict) : list Entry := map snd d.

(** The positions of the five columns in the header row. *)
Record Columns := mkColumns {
  name_idx : nat;
  contact_idx : nat;
  cred_idx : nat;
  reg_idx : nat;
  source_idx : nat
}.

(** [str(row[idx].value)] when
    [idx < len(row) and row[idx] and row[idx].value], else nothing. *)
Definition cell_text (row : Row) (idx : nat) : option str :=
  match nth_error row idx with
  | Some (TextCell (c :: v)) => Some (c :: v)
  | _ => None
  end.

Definition normalized_or_empty (row : Row) (idx : nat) : str :=
  match cell_text row idx with
  | Some v => normalize_whitespace v
  | None => []
  end.

Definition key_basis (name : str) (reg_numbers : list str)
    (source_value : str) : str :=
  lower name ++ lit "|"
  ++ match reg_numbers with
     | r :: _ => r
     | [] => lower source_value
     end.

Definition entry_id_of (name : str) (reg_numbers : list str)
    (source_value : str) : str :=
  firstn 12
    (Sha1.hexdigest (encode_utf8 (key_basis name reg_numbers source_value))).

(** The fields computed for an accepted row, as the entry a first
    occurrence of its id stores; [None] for a row the loop skips. *)
Definition candidate (cols : Columns) (row : Row) : option Entry :=
  match nth_error row (name_idx cols) with
  | None => None
  | Some NoCell => None
  | Some EmptyCell => None
  | Some (TextCell value) =>
      let name := normalize_whitespace value in
      if negb (looks_like_doctor name) then None
      else
        let contact_value := normalized_or_empty row (contact_idx cols) in
        let cred_value := normalized_or_empty row (cred_idx cols) in
        let reg_value := normalized_or_empty row (reg_idx cols) in
        let source_value :=
          match cell_text row (source_idx cols) with
          | Some v => v
          | None => []
          end in
        let contacts := split_multi_value contact_value in
        let credentials := split_multi_value cred_value in
        let reg_numbers := split_multi_value reg_value in
        let specialty := infer_specialty [cred_value; reg_value] in
        let entry_id := entry_id_of name reg_numbers source_value in
        Some (mkEntry entry_id name specialty contacts credentials
                      reg_numbers source_value)
  end.

(** The three assignments to [existing]. *)
Definition merge (existing fresh : Entry) : Entry :=
  mkEntry (e_id existing) (e_name existing) (e_specialty existing)
    (sorted_union (e_contacts existing) (e_contacts fresh))
    (sorted_union (e_credentials existing) (e_credentials fresh))
    (sorted_union (e_registrationNumbers existing)
                  (e_registrationNumbers fresh))
    (e_sourceFile existing).

Definition upsert (entries : dict) (fresh : Entry) : dict :=
  match dict_get (e_id fresh) entries with
  | Some existing => dict_set (e_id fresh) (merge existing fresh) entries
  | None => dict_set (e_id fresh) fresh entries
  end.

(** One turn of the loop over [rows[1:]]. *)
Definition scan_row (cols : Columns) (entries : dict) (row : Row) : dict :=
  match candidate cols row with
  | None => entries
  | Some fresh => upsert entries fresh
  end.

Definition scan (cols : Columns) (rows : list Row) : dict :=
  fold_left (scan_row cols) rows [].

(** ** [build_directory] *)

Inductive Exception :=
| FileNotFoundError
| IndexError
| ValueError.

Definition result (A : Type) : Type := Exception + A.

Definition bind {A B : Type} (m : result A) (k : A -> result B)
  : result B :=
  match m with
  | inl e => inl e
  | inr a => k a
  end.

Notation "x <- m ;; k" := (bind m (fun x => k))
  (at level 61, m at next level, right associativity).

Definition item {A : Type} (l : list A) (i : nat) : result A :=
  match nth_error l i with
  | Some a => inr a
  | None => inl IndexError
  end.

(** [cell.value if cell else ""]; [None] is the value [None]. *)
Definition header_value (cell : Cell) : option str :=
  match cell with
  | NoCell => Some []
  | EmptyCell => None
  | TextCell v => Some v
  end.

Fixpoint index_from (i : nat) (x : str) (l : list (option str))
  : result nat :=
  match l with
  | [] => inl ValueError
  | h :: t =>
      match h with
      | Some v => if str_eqb v x then inr i else index_from (S i) x t
      | None => index_from (S i) x t
      end
  end.

(** [headers.index(x)] *)
Definition index (x : str) (l : list (option str)) : result nat :=
  index_from 0 x l.

Definition read_columns (headers : list (option str)) : result Columns :=
  name_idx <- index (lit "Doctor Name") headers ;;
  contact_idx <- index (lit "Contact Information") headers ;;
  cred_idx <- index (lit "Credentials/Specialty") headers ;;
  reg_idx <- index (lit "Registration Numbers") headers ;;
  source_idx <- index (lit "Source File") headers ;;
  inr (mkColumns name_idx contact_idx cred_idx reg_idx source_idx).

Definition extract (doc : Document) : result dict :=
  sheet <- item doc 0 ;;
  rows <- item sheet 0 ;;
  header <- item rows 0 ;;
  cols <- read_columns (map header_value header) ;;
  inr (scan cols (tl rows)).

(** What the run can see and change: the file at [NUMBERS_PATH], the
    directory and the file at [OUTPUT_PATH] (the file as the list that
    [json.dump] receives), and the summaries printed, each by its count. *)
Record World := mkWorld {
  numbers_file : option Document;
  output_dir : bool;
  output_file : option (list Entry);
  stdout : list nat
}.

Inductive Outcome :=
| Returned
| Raised (e : Exception).

Definition build_directory (w : World) : World * Outcome :=
  match numbers_file w with
  | None => (w, Raised FileNotFoundError)
  | Some doc =>
      match extract doc with
      | inl e => (w, Raised e)
      | inr entries =>
          (mkWorld (numbers_file w) true (Some (dict_values entries))
                   (stdout w ++ [length entries]),
           Returned)
      end
  end.

(** ** Predicates used to state the properties *)

Definition sep_free (sep : ascii -> bool) (w : str) : Prop :=
  Forall (fun c => sep c = false) w.

(** A word: a non-empty string without separator. *)
Definition word (sep : ascii -> bool) (w : str) : Prop :=
  w <> [] /\ sep_free sep w.

(** [s] read as the words [ts] between runs of separators: a separator
    is skipped, and a word ends at the end of [s] or before a
    separator. *)
Inductive tokens_of (sep : ascii -> bool) : str -> list str -> Prop :=
| tokens_nil : tokens_of sep [] []
| tokens_skip c s ts :
    sep c = true -> tokens_of sep s ts -> tokens_of sep (c :: s) ts
| tokens_word w s ts :
    word sep w ->
    s = [] \/ (exists c s', s = c :: s' /\ sep c = true) ->
    tokens_of sep s ts ->
    tokens_of sep (w ++ s) (w :: ts).

(** [kw] occurs in [s]. *)
Definition substring (kw s : str) : Prop :=
  exists pre post, s = pre ++ kw ++ post.

Definition str_le (a b : str) : Prop := str_leb a b = true.

(** Stored as a sorted set: strictly increasing, hence without
    repetition. *)
Definition sorted_set (l : list str) : Prop := StronglySorted str_lt l.

(** [r] is the sorted union of [a] and [b]. *)
Definition is_sorted_union (r a b : list str) : Prop :=
  sorted_set r /\ forall x, In x r <-> In x a \/ In x b.

(** Two entries that agree up to the order of their multi-valued
    fields. *)
Definition same_entry_up_to_order (e1 e2 : Entry) : Prop :=
  e_id e1 = e_id e2
  /\ e_name e1 = e_name e2
  /\ e_specialty e1 = e_specialty e2
  /\ e_sourceFile e1 = e_sourceFile e2
  /\ Permutation (e_contacts e1) (e_contacts e2)
  /\ Permutation (e_credentials e1) (e_credentials e2)
  /\ Permutation (e_registrationNumbers e1) (e_registrationNumbers e2).

Definition is_hex (c : ascii) : Prop := In c (lit "0123456789abcdef").

(** The lower-cased, space-joined text of the non-empty fields. *)
Definition combined_text (fields : list str) : str :=
  lower (join (lit " ") (filter nonempty fields)).

(** Every entry is stored under its own id. *)
Definition well_keyed (d : dict) : Prop :=
  forall k e, In (k, e) d -> e_id e = k.

(** ** Sample sheets *)

Open Scope string_scope.

Definition text_row (cells : list string) : Row :=
  map (fun x => TextCell (lit x)) cells.

Definition header_row : Row :=
  text_row [ "Doctor Name"; "Contact Information"; "Credentials/Specialty";
             "Registration Numbers"; "Source File" ].

Definition header_columns : Columns := mkColumns 0 1 2 3 4.

Definition entry (id name specialty : string)
    (contacts credentials reg_numbers : list string) (source : string)
  : Entry :=
  mkEntry (lit id) (lit name) (lit specialty) (map lit contacts)
          (map lit credentials) (map lit reg_numbers) (lit source).

Definition row_jane : Row :=
  text_row [ "Dr. Jane Smith"; "555-1234"; "MD Cardiology"; "REG123";
             "file1.csv" ].

Definition row_doe_a : Row :=
  text_row [ "John Doe"; "a@x.com"; "Cardiology"; "R1"; "a.csv" ].

Definition row_doe_b : Row :=
  text_row [ "John Doe"; "b@x.com"; ""; "R1"; "b.csv" ].

Definition row_doe_c : Row :=
  text_row [ "John Doe"; "b@x.com; a@x.com; b@x.com"; ""; "";
             "C.csv" ].

Definition entry_doe_a : Entry :=
  entry "6d6868a3af68" "John Doe" "Cardiology" ["a@x.com"] ["Cardiology"]
        ["R1"] "a.csv".

Definition entry_doe_b : Entry :=
  entry "6d6868a3af68" "John Doe" "General Practice" ["b@x.com"] []
        ["R1"] "b.csv".

Definition entry_doe_c : Entry :=
  entry "d376dedd0f1c" "John Doe" "General Practice"
        ["b@x.com"; "a@x.com"; "b@x.com"] [] [] "C.csv".

(** The entry of the two John Doe rows, [row_doe_a] first. *)
Definition entry_doe_ab : Entry :=
  entry "6d6868a3af68" "John Doe" "Cardiology" ["a@x.com"; "b@x.com"]
        ["Cardiology"] ["R1"] "a.csv".

(** The same, [row_doe_b] first. *)
Definition entry_doe_ba : Entry :=
  entry "6d6868a3af68" "John Doe" "General Practice" ["a@x.com"; "b@x.com"]
        ["Cardiology"] ["R1"] "b.csv".

Definition entry_jane : Entry :=
  entry "8ee8f370cd2c" "Dr. Jane Smith" "Cardiology" ["555-1234"]
        ["MD Cardiology"] ["REG123"] "file1.csv".

Definition document_of (rows : list Row) : Document :=
  [[header_row :: rows]].

(** A world with nothing at the output path and nothing printed. *)
Definition world_with (doc : option Document) : World :=
  mkWorld doc false None [].

Close Scope string_scope.

(** ** Further predicates *)

(** The shape of a normalized string: its only whitespace is the space,
    and no space stands first, last, or next to another. *)
Definition normal_form (s : str) : Prop :=
  (forall c, In c s -> isspace c = true -> c = " "%char)
  /\ (forall t, s <> " "%char :: t)
  /\ (forall t, s <> t ++ [" "%char])
  /\ (forall pre post, s <> pre ++ " "%char :: " "%char :: post).

(** The characters of [s] that are not whitespace, in order. *)
Definition visible (s : str) : str :=
  filter (fun c => negb (isspace c)) s.

(** A fragment as [split_multi_value] returns it from a normalized
    value: not empty, in normal form, without semicolon or newline. *)
Definition clean_value (x : str) : Prop :=
  x <> [] /\ normal_form x /\ sep_free semi_or_newline x.

(** The labels [infer_specialty] can answer. *)
Definition SPECIALTY_LABELS : list str :=
  map snd SPECIALTY_KEYWORDS ++ [lit "General Practice"].

(** The five column names [build_directory] looks up. *)
Definition REQUIRED_HEADERS : list str :=
  map lit [ "Doctor Name"; "Contact Information"; "Credentials/Specialty";
            "Registration Numbers"; "Source File" ]%string.

(** The five positions, in the order of [REQUIRED_HEADERS]. *)
Definition column_indices (cols : Columns) : list nat :=
  [name_idx cols; contact_idx cols; cred_idx cols; reg_idx cols;
   source_idx cols].

(** Nothing to read at position [idx] of [row]: the row is too short,
    or the cell tests false, or its value is [None] or the empty
    string. *)
Definition blank_at (row : Row) (idx : nat) : Prop :=
  length row <= idx
  \/ nth_error row idx = Some NoCell
  \/ nth_error row idx = Some EmptyCell
  \/ nth_error row idx = Some (TextCell []).

(** The fields of an entry that a merge leaves alone. *)
Definition singular_fields (e : Entry) : str * str * str * str :=
  (e_id e, e_name e, e_specialty e, e_sourceFile e).

(** The id, name, specialty and source file of [e] are those an
    accepted row computes. *)
Definition from_a_row (cols : Columns) (e : Entry) : Prop :=
  exists row fresh,
    candidate cols row = Some fresh
    /\ singular_fields e = singular_fields fresh.

Definition multi_values (e : Entry) : list str :=
  e_contacts e ++ e_credentials e ++ e_registrationNumbers e.

(** The ids of the rows the loop accepts, row by row. *)
Definition accepted_ids (cols : Columns) (rows : list Row) : list str :=
  flat_map (fun row => match candidate cols row with
                       | Some fresh => [e_id fresh]
                       | None => []
                       end) rows.

(** The elements of [l] outside [seen], each at its first occurrence. *)
Fixpoint first_seen (seen l : list str) : list str :=
  match l with
  | [] => []
  | x :: rest =>
      if in_dec str_eq_dec x seen then first_seen seen rest
      else x :: first_seen (x :: seen) rest
  end.

(** John Doe again, in capitals, from another file. *)
Open Scope string_scope.

Definition row_doe_upper : Row :=
  text_row [ "JOHN  DOE"; "x"; ""; "R1; R2"; "z.csv" ].

Definition entry_doe_upper : Entry :=
  entry "6d6868a3af68" "JOHN DOE" "General Practice" ["x"] []
        ["R1"; "R2"] "z.csv".

Close Scope string_scope.

(** [SPECIALTY_KEYWORDS] without its third pair, ("dermato", ...). *)
Definition SPECIALTY_KEYWORDS_without_dermato : list (str * str) :=
  firstn 2 SPECIALTY_KEYWORDS ++ skipn 3 SPECIALTY_KEYWORDS.

(** * Properties *)

Example normalize_whitespace_ex :
  normalize_whitespace (lit "  Dr.   Jane
 Smith ") = lit "Dr. Jane Smith".
Proof. reflexivity. Qed.

Example sha1_abc :
  Sha1.hexdigest (encode_utf8 (lit "abc"))
  = lit "a9993e364706816aba3e25717850c26c9cd0d89d".
Proof. vm_compute. reflexivity. Qed.

Example sha1_empty :
  Sha1.hexdigest [] = lit "da39a3ee5e6b4b0d3255bfef95601890afd80709".
Proof. vm_compute. reflexivity. Qed.

Example sha1_two_blocks :
  Sha1.hexdigest (encode_utf8
    (lit "abcdbcdecdefdefgefghfghighijhijkijkljklmklmnlmnomnopnopq"))
  = lit "84983e441c3bd26ebaae4aa1f95129e5e54670f1".
Proof. vm_compute. reflexivity. Qed.


Example re_split_pieces :
  re_split semi_or_newline (lit ";a;;b;") = [[]; lit "a"; lit "b"; []]
  /\ re_split semi_or_newline [] = [[]]
  /\ re_split token_sep (lit " a - b,") = [[]; lit "a"; lit "b"; []].
Proof. repeat split. Qed.

Example str_split_no_empty_ends :
  str_split (lit "  a   b ") = [lit "a"; lit "b"] /\ str_split (lit "  ") = [].
Proof. split; reflexivity. Qed.

Example strip_only_listed : strip space_or_semi (lit "; a ;b ; ") = lit "a ;b".
Proof. reflexivity. Qed.

Example lower_latin :
  lower (lit "Dr. JANE") = lit "dr. jane"
  /\ lower ["192"%char; "215"%char; "222"%char]
     = ["224"%char; "215"%char; "254"%char].
Proof. split; reflexivity. Qed.

Example utf8_two_bytes : encode_utf8 ["233"%char] = [195; 169]%Z.
Proof. reflexivity. Qed.

Example sorted_by_code_point :
  sorted [lit "b"; lit "a"; lit "B"; lit "ab"]
  = [lit "B"; lit "a"; lit "ab"; lit "b"].
Proof. reflexivity. Qed.
(** ** Splitting on runs of a character class *)

Section Splitting.
Variable sep : ascii -> bool.

Lemma split_runs_not_nil b s : split_runs sep b s <> [].
Proof.
  revert b; induction s as [|c s IH]; intros b; simpl; [discriminate|].
  destruct (sep c); [destruct b; [apply IH | discriminate]|].
  destruct (split_runs sep false s) eqn:E; discriminate.
Qed.

Lemma split_runs_sep_free b s :
  Forall (sep_free sep) (split_runs sep b s).
Proof.
  revert b; induction s as [|c s IH]; intros b; simpl.
  - repeat constructor.
  - destruct (sep c) eqn:Hc.
    + destruct b; [apply IH|]. constructor; [constructor | apply IH].
    + specialize (IH false).
      destruct (split_runs sep false s) as [|w ws]; simpl.
      * repeat constructor; assumption.
      * inversion IH; subst. constructor; [|assumption].
        constructor; assumption.
Qed.

(** The non-empty pieces do not depend on the flag. *)
Lemma fields_flag b s :
  filter nonempty (split_runs sep b s)
  = filter nonempty (split_runs sep false s).
Proof.
  destruct s as [|c s]; simpl; [reflexivity|].
  destruct (sep c); [destruct b; reflexivity | reflexivity].
Qed.

Lemma fields_word_prefix w s :
  sep_free sep w ->
  split_runs sep false (w ++ s)
  = match split_runs sep false s with
    | [] => [w]
    | h :: t => (w ++ h) :: t
    end.
Proof.
  induction 1 as [|c w Hc Hw IH]; simpl.
  - destruct (split_runs sep false s) eqn:E; [|reflexivity].
    exfalso; eapply split_runs_not_nil; eassumption.
  - rewrite Hc, IH.
    destruct (split_runs sep false s); reflexivity.
Qed.

Lemma fields_sep_free s :
  Forall (word sep) (filter nonempty (split_runs sep false s)).
Proof.
  apply Forall_forall; intros w Hw.
  apply filter_In in Hw; destruct Hw as [Hin Hne].
  split.
  - destruct w; [discriminate Hne | discriminate].
  - pose proof (split_runs_sep_free false s) as H.
    rewrite Forall_forall in H; apply H; assumption.
Qed.

Lemma fields_word_sep w d s :
  word sep w -> sep d = true ->
  filter nonempty (split_runs sep false (w ++ d :: s))
  = w :: filter nonempty (split_runs sep false s).
Proof.
  intros [Hne Hw] Hd.
  rewrite fields_word_prefix by assumption.
  cbn [split_runs]. rewrite Hd, app_nil_r.
  destruct w as [|c w]; [contradiction|].
  cbn [filter nonempty]. rewrite fields_flag. reflexivity.
Qed.

Lemma fields_word_alone w :
  word sep w -> filter nonempty (split_runs sep false w) = [w].
Proof.
  intros [Hne Hw].
  rewrite <- (app_nil_r w) at 1.
  rewrite fields_word_prefix by assumption.
  cbn [split_runs]. rewrite app_nil_r.
  destruct w; [contradiction | reflexivity].
Qed.

(** Joining words with one separator and splitting again gives the
    words back. *)
Lemma fields_join (d : ascii) ws :
  sep d = true ->
  Forall (word sep) ws ->
  filter nonempty (split_runs sep false (join [d] ws)) = ws.
Proof.
  intros Hd; induction 1 as [|w ws Hw Hws IH]; [reflexivity|].
  destruct ws as [|w' ws'].
  - apply fields_word_alone; assumption.
  - change (join [d] (w :: w' :: ws'))
      with (w ++ d :: join [d] (w' :: ws')).
    rewrite fields_word_sep, IH by assumption. reflexivity.
Qed.

Lemma fields_sep_cons c s :
  sep c = true ->
  filter nonempty (split_runs sep false (c :: s))
  = filter nonempty (split_runs sep false s).
Proof.
  intros H. cbn [split_runs]. rewrite H. cbn [filter nonempty].
  apply fields_flag.
Qed.

(** Any reading of [s] as words between runs of separators is the one
    the split computes. *)
Lemma tokens_of_fields s ts :
  tokens_of sep s ts -> filter nonempty (split_runs sep false s) = ts.
Proof.
  induction 1 as [|c s ts Hc _ IH|w s ts Hw Hs _ IH].
  - reflexivity.
  - rewrite fields_sep_cons; assumption.
  - destruct Hs as [->|(d & s' & -> & Hd)].
    + rewrite app_nil_r, fields_word_alone by assumption.
      simpl in IH. rewrite <- IH. reflexivity.
    + rewrite fields_word_sep by assumption.
      rewrite <- IH, fields_sep_cons by assumption. reflexivity.
Qed.

(** The first piece of a split and what follows it. *)
Lemma split_runs_head s h t :
  split_runs sep false s = h :: t ->
  sep_free sep h
  /\ ((s = h /\ t = [])
      \/ exists d r, s = h ++ d :: r /\ sep d = true
                     /\ t = split_runs sep true r).
Proof.
  revert h t; induction s as [|c s IH]; intros h t; cbn [split_runs].
  - intros H. injection H as <- <-.
    split; [constructor | left; split; reflexivity].
  - destruct (sep c) eqn:Hc.
    + intros H. injection H as <- <-.
      split; [constructor|]. right. exists c, s. repeat split. exact Hc.
    + destruct (split_runs sep false s) as [|h' t'] eqn:E.
      * exfalso. eapply split_runs_not_nil. exact E.
      * cbn [cons_head]. intros H. injection H as <- <-.
        destruct (IH h' t' eq_refl) as [Hfree Hcases].
        split; [constructor; assumption|].
        destruct Hcases as [[-> ->]|(d & r & -> & Hd & ->)].
        -- left. split; reflexivity.
        -- right. exists d, r. repeat split. exact Hd.
Qed.

Lemma fields_tokens_bounded n s :
  length s <= n ->
  tokens_of sep s (filter nonempty (split_runs sep false s)).
Proof.
  revert s; induction n as [|n IH]; intros s Hn.
  - destruct s; [constructor | simpl in Hn; lia].
  - destruct s as [|c s]; [constructor|].
    destruct (sep c) eqn:Hc.
    + rewrite fields_sep_cons by exact Hc.
      apply tokens_skip; [exact Hc|]. apply IH. simpl in Hn. lia.
    + destruct (split_runs sep false (c :: s)) as [|h t] eqn:E.
      * exfalso. eapply split_runs_not_nil. exact E.
      * destruct (split_runs_head _ _ _ E) as [Hfree Hcases].
        assert (h <> []) as Hne.
        { intros ->. destruct Hcases as [[H _]|(d & r & H & Hd & _)].
          - discriminate.
          - injection H as -> _. congruence. }
        assert (nonempty h = true) as Hb
          by (destruct h; [exfalso; apply Hne |]; reflexivity).
        cbn [filter]. rewrite Hb.
        destruct Hcases as [[Hs ->]|(d & r & Hs & Hd & ->)].
        -- rewrite Hs, <- (app_nil_r h) at 1.
           apply tokens_word; [split; assumption | left; reflexivity|].
           constructor.
        -- rewrite Hs, fields_flag.
           apply tokens_word; [split; assumption | right; eauto|].
           apply tokens_skip; [exact Hd|]. apply IH.
           apply (f_equal (@length ascii)) in Hs.
           rewrite length_app in Hs. simpl in Hs, Hn. lia.
Qed.

(** The split reads [s] as words between runs of separators. *)
Lemma fields_tokens s :
  tokens_of sep s (filter nonempty (split_runs sep false s)).
Proof. apply (fields_tokens_bounded (length s)). reflexivity. Qed.

(** Splitting commutes with a character map that keeps the class. *)
Lemma split_runs_map (f : ascii -> ascii) b s :
  (forall c, sep (f c) = sep c) ->
  split_runs sep b (map f s) = map (map f) (split_runs sep b s).
Proof.
  intros Hf; revert b; induction s as [|c s IH]; intros b; simpl;
    [reflexivity|].
  rewrite Hf. destruct (sep c).
  - destruct b; simpl; rewrite IH; reflexivity.
  - rewrite IH. destruct (split_runs sep false s); reflexivity.
Qed.

Lemma split_runs_chars b s w c :
  In w (split_runs sep b s) -> In c w -> In c s.
Proof.
  revert b w; induction s as [|a s IH]; intros b w Hw Hc; simpl in Hw.
  - destruct Hw as [<-|[]]. destruct Hc.
  - destruct (sep a).
    + right. destruct b.
      * eapply IH; eassumption.
      * destruct Hw as [<-|Hw]; [destruct Hc | eapply IH; eassumption].
    + specialize (IH false).
      destruct (split_runs sep false s) as [|h t]; simpl in Hw.
      * destruct Hw as [<-|[]]. destruct Hc as [<-|[]]. left; reflexivity.
      * destruct Hw as [<-|Hw].
        -- destruct Hc as [<-|Hc]; [left; reflexivity|].
           right. eapply IH; [left; reflexivity | assumption].
        -- right. eapply IH; [right; eassumption | assumption].
Qed.
End Splitting.

Lemma filter_nonempty_map (f : ascii -> ascii) (l : list str) :
  filter nonempty (map (map f) l) = map (map f) (filter nonempty l).
Proof.
  induction l as [|w l IH]; [reflexivity|]. simpl.
  destruct w; simpl; rewrite IH; reflexivity.
Qed.

Lemma join_map (f : ascii -> ascii) (d : str) (l : list str) :
  join (map f d) (map (map f) l) = map f (join d l).
Proof.
  induction l as [|w l IH]; [reflexivity|].
  destruct l as [|w' l']; [reflexivity|].
  change (map f (join d (w :: w' :: l')))
    with (map f (w ++ d ++ join d (w' :: l'))).
  rewrite !map_app, <- IH. reflexivity.
Qed.

(** ** [normalize_whitespace] *)

Lemma isspace_space : isspace " " = true.
Proof. reflexivity. Qed.

Lemma str_split_words s : Forall (word isspace) (str_split s).
Proof. apply fields_sep_free. Qed.

Lemma str_split_normalized s :
  str_split (normalize_whitespace s) = str_split s.
Proof.
  unfold normalize_whitespace.
  apply (fields_join isspace " "%char); [reflexivity | apply str_split_words].
Qed.

(** C9: [normalize_whitespace] is idempotent. *)
Theorem normalize_whitespace_idempotent (s : str) :
  normalize_whitespace (normalize_whitespace s) = normalize_whitespace s.
Proof.
  unfold normalize_whitespace at 1.
  rewrite str_split_normalized. reflexivity.
Qed.

(** ** Lower-casing and the character classes *)

Ltac each_char c :=
  destruct c as [[|] [|] [|] [|] [|] [|] [|] [|]]; reflexivity.

Lemma isspace_lower_char c : isspace (lower_char c) = isspace c.
Proof. each_char c. Qed.

Lemma isdigit_lower_char c : isdigit (lower_char c) = isdigit c.
Proof. each_char c. Qed.

Lemma token_sep_lower_char c : token_sep (lower_char c) = token_sep c.
Proof. each_char c. Qed.

Lemma lower_char_idempotent c : lower_char (lower_char c) = lower_char c.
Proof. each_char c. Qed.

Lemma lower_idempotent s : lower (lower s) = lower s.
Proof.
  unfold lower. rewrite map_map. apply map_ext.
  intros c; apply lower_char_idempotent.
Qed.

Lemma lower_app a b : lower (a ++ b) = lower a ++ lower b.
Proof. apply map_app. Qed.

Lemma str_split_lower s : str_split (lower s) = map lower (str_split s).
Proof.
  unfold str_split, re_split, lower.
  rewrite split_runs_map by apply isspace_lower_char.
  apply filter_nonempty_map.
Qed.

Lemma join_lower d l : join (lower d) (map lower l) = lower (join d l).
Proof. apply join_map. Qed.

(** Lower-casing and whitespace normalization commute. *)
Lemma normalize_whitespace_lower s :
  normalize_whitespace (lower s) = lower (normalize_whitespace s).
Proof.
  unfold normalize_whitespace. rewrite str_split_lower.
  change (lit " ") with (lower (lit " ")) at 1.
  apply join_lower.
Qed.

Lemma name_tokens_lower s : name_tokens (lower s) = map lower (name_tokens s).
Proof.
  unfold name_tokens, re_split, lower.
  rewrite split_runs_map by apply token_sep_lower_char.
  apply filter_nonempty_map.
Qed.

Lemma existsb_isdigit_lower s :
  existsb isdigit (lower s) = existsb isdigit s.
Proof.
  induction s as [|c s IH]; [reflexivity|].
  simpl. rewrite isdigit_lower_char. f_equal. exact IH.
Qed.

(** ** Searching *)

Lemma startswith_spec p s :
  startswith p s = true <-> exists post, s = p ++ post.
Proof.
  revert s; induction p as [|a p IH]; intros s; simpl.
  - split; [intros _; exists s; reflexivity | reflexivity].
  - destruct s as [|b s].
    + split; [discriminate | intros [post H]; discriminate].
    + rewrite andb_true_iff, Ascii.eqb_eq, IH. split.
      * intros [-> [post ->]]. exists post; reflexivity.
      * intros [post H]. injection H as -> ->.
        split; [reflexivity | exists post; reflexivity].
Qed.

Lemma contains_spec kw s : contains kw s = true <-> substring kw s.
Proof.
  unfold substring. induction s as [|c s IH]; simpl.
  - rewrite orb_false_r, startswith_spec. split.
    + intros [post H]. exists [], post. exact H.
    + intros [pre [post H]]. destruct pre as [|x pre]; [|discriminate].
      exists post; exact H.
  - rewrite orb_true_iff, startswith_spec, IH. split.
    + intros [[post H] | [pre [post H]]].
      * exists [], post. exact H.
      * exists (c :: pre), post. rewrite H. reflexivity.
    + intros [pre [post H]]. destruct pre as [|x pre].
      * left. exists post. exact H.
      * right. injection H as _ H. exists pre, post. exact H.
Qed.

Lemma str_eqb_eq a b : str_eqb a b = true <-> a = b.
Proof.
  unfold str_eqb. destruct (str_eq_dec a b); split; congruence.
Qed.

Lemma existsb_str_eqb x l : existsb (str_eqb x) l = true <-> In x l.
Proof.
  rewrite existsb_exists. split.
  - intros [y [Hy H]]. apply str_eqb_eq in H. subst; assumption.
  - intros H. exists x. split; [assumption | apply str_eqb_eq; reflexivity].
Qed.

Lemma existsb_contains l s :
  existsb (fun keyword => contains keyword s) l = true
  <-> exists kw, In kw l /\ substring kw s.
Proof.
  rewrite existsb_exists. split; intros [kw [H1 H2]]; exists kw;
    (split; [assumption | apply contains_spec; assumption]).
Qed.

Lemma existsb_isdigit s :
  existsb isdigit s = true <-> exists c, In c s /\ isdigit c = true.
Proof. apply existsb_exists. Qed.

(** ** The classifier *)

Lemma looks_like_doctor_cons c s :
  looks_like_doctor (c :: s)
  = let normalized := normalize_whitespace (c :: s) in
    if existsb (str_eqb (lower normalized)) PLACEHOLDERS then false
    else if existsb (fun keyword => contains keyword (lower normalized))
                    BLOCK_KEYWORDS then false
    else if existsb isdigit normalized then false
    else Nat.leb 2 (length (name_tokens normalized)).
Proof. reflexivity. Qed.

(** The tokens of a name are its words between runs of hyphens, commas
    and whitespace. *)
Lemma name_tokens_spec s ts :
  tokens_of token_sep s ts <-> name_tokens s = ts.
Proof.
  split; [apply tokens_of_fields|].
  intros <-. apply fields_tokens.
Qed.

(** C1: [looks_like_doctor name] answers true exactly when the name is
    not empty, its normalized lower-cased form is no placeholder label,
    that form contains no block keyword, the normalized form contains no
    digit, and the normalized form splits on runs of hyphens, commas and
    whitespace into at least two tokens. *)
Theorem looks_like_doctor_rules (name : str) :
  looks_like_doctor name = true <->
  name <> []
  /\ ~ In (lower (normalize_whitespace name)) PLACEHOLDERS
  /\ (forall kw, In kw BLOCK_KEYWORDS ->
                 ~ substring kw (lower (normalize_whitespace name)))
  /\ (forall c, In c (normalize_whitespace name) -> isdigit c = false)
  /\ (exists tokens,
        tokens_of token_sep (normalize_whitespace name) tokens
        /\ 2 <= length tokens).
Proof.
  destruct name as [|c s].
  - simpl. split; [discriminate | intros [H _]; contradiction].
  - rewrite looks_like_doctor_cons. cbv zeta.
    set (normalized := normalize_whitespace (c :: s)).
    destruct (existsb (str_eqb (lower normalized)) PLACEHOLDERS) eqn:Hp.
    { apply existsb_str_eqb in Hp.
      split; [discriminate | intros (_ & H & _); contradiction]. }
    destruct (existsb (fun keyword => contains keyword (lower normalized))
                      BLOCK_KEYWORDS) eqn:Hk.
    { apply existsb_contains in Hk. destruct Hk as [kw [Hin Hsub]].
      split; [discriminate|]. intros (_ & _ & H & _).
      exfalso; exact (H kw Hin Hsub). }
    destruct (existsb isdigit normalized) eqn:Hd.
    { apply existsb_isdigit in Hd. destruct Hd as [d [Hin Hdig]].
      split; [discriminate|]. intros (_ & _ & _ & H & _).
      rewrite (H d Hin) in Hdig. discriminate. }
    rewrite Nat.leb_le. split.
    + intros Hlen. split; [discriminate|]. split.
      * intros Hin. apply existsb_str_eqb in Hin. congruence.
      * split.
        -- intros kw Hin Hsub.
           assert (existsb (fun keyword => contains keyword (lower normalized))
                           BLOCK_KEYWORDS = true) as E
             by (apply existsb_contains; exists kw; split; assumption).
           congruence.
        -- split;
             [|exists (name_tokens normalized);
               split; [apply name_tokens_spec; reflexivity | exact Hlen]].
           intros d Hin. destruct (isdigit d) eqn:Hdig; [|reflexivity].
           assert (existsb isdigit normalized = true) as E
             by (apply existsb_isdigit; exists d; split; assumption).
           congruence.
    + intros (_ & _ & _ & _ & tokens & Htokens & Hlen).
      apply name_tokens_spec in Htokens. rewrite Htokens. exact Hlen.
Qed.

(** C10: the verdict of the classifier does not depend on letter case. *)
Theorem looks_like_doctor_lower (s : str) :
  looks_like_doctor (lower s) = looks_like_doctor s.
Proof.
  destruct s as [|c s]; [reflexivity|].
  change (lower (c :: s)) with (lower_char c :: lower s).
  rewrite !looks_like_doctor_cons. cbv zeta.
  change (lower_char c :: lower s) with (lower (c :: s)).
  rewrite normalize_whitespace_lower, lower_idempotent.
  rewrite existsb_isdigit_lower, name_tokens_lower, length_map.
  reflexivity.
Qed.

(** ** The order on strings *)

Lemma code_inj x y : code x = code y -> x = y.
Proof.
  unfold code; intros H.
  rewrite <- (ascii_N_embedding x), <- (ascii_N_embedding y), H.
  reflexivity.
Qed.

Lemma str_compare_refl a : str_compare a a = Eq.
Proof.
  induction a as [|x a IH]; [reflexivity|].
  simpl. rewrite N.compare_refl. exact IH.
Qed.

Lemma str_compare_eq a b : str_compare a b = Eq -> a = b.
Proof.
  revert b; induction a as [|x a IH]; intros [|y b]; simpl;
    try discriminate; [reflexivity|].
  destruct (N.compare (code x) (code y)) eqn:E; try discriminate.
  intros H. apply N.compare_eq in E. apply code_inj in E.
  rewrite E, (IH b H). reflexivity.
Qed.

Lemma str_compare_antisym a b :
  str_compare b a = CompOpp (str_compare a b).
Proof.
  revert b; induction a as [|x a IH]; intros [|y b]; simpl;
    try reflexivity.
  rewrite (N.compare_antisym (code x) (code y)).
  destruct (N.compare (code x) (code y)); simpl; [apply IH | | ];
    reflexivity.
Qed.

Lemma str_lt_irrefl a : ~ str_lt a a.
Proof. unfold str_lt. rewrite str_compare_refl. discriminate. Qed.

Lemma str_lt_trans a b c : str_lt a b -> str_lt b c -> str_lt a c.
Proof.
  unfold str_lt. revert b c.
  induction a as [|x a IH]; intros [|y b] [|z c]; simpl;
    try discriminate; try reflexivity.
  destruct (N.compare (code x) (code y)) eqn:Exy; try discriminate;
    destruct (N.compare (code y) (code z)) eqn:Eyz; try discriminate;
    intros H1 H2.
  - apply N.compare_eq in Exy, Eyz.
    rewrite Exy, Eyz, N.compare_refl. eapply IH; eassumption.
  - apply N.compare_eq in Exy. rewrite Exy, Eyz. reflexivity.
  - apply N.compare_eq in Eyz. rewrite <- Eyz, Exy. reflexivity.
  - rewrite N.compare_lt_iff in Exy, Eyz.
    assert (code x < code z)%N as H by (eapply N.lt_trans; eassumption).
    rewrite <- N.compare_lt_iff in H. rewrite H. reflexivity.
Qed.

Lemma str_lt_asym a b : str_lt a b -> ~ str_lt b a.
Proof.
  intros H1 H2. apply (str_lt_irrefl a). eapply str_lt_trans; eassumption.
Qed.

Lemma str_leb_cases a b : str_leb a b = true <-> str_lt a b \/ a = b.
Proof.
  unfold str_leb, str_lt. split.
  - destruct (str_compare a b) eqn:E; intros H;
      [right; apply str_compare_eq; exact E | left; reflexivity
      | discriminate].
  - intros [-> | ->]; [reflexivity | rewrite str_compare_refl; reflexivity].
Qed.

Lemma str_leb_false a b : str_leb a b = false -> str_lt b a.
Proof.
  unfold str_leb, str_lt. rewrite (str_compare_antisym a b).
  destruct (str_compare a b); simpl; [discriminate .. | reflexivity].
Qed.

Lemma str_le_trans a b c : str_le a b -> str_le b c -> str_le a c.
Proof.
  unfold str_le. rewrite !str_leb_cases.
  intros [H1 | ->] [H2 | ->]; auto.
  left; eapply str_lt_trans; eassumption.
Qed.

(** ** [sorted] *)

Lemma insert_sorted_perm x l : Permutation (insert_sorted x l) (x :: l).
Proof.
  induction l as [|y l IH]; simpl; [reflexivity|].
  destruct (str_leb x y); [reflexivity|].
  rewrite IH. apply perm_swap.
Qed.

Lemma sorted_perm l : Permutation (sorted l) l.
Proof.
  induction l as [|x l IH]; simpl; [reflexivity|].
  rewrite insert_sorted_perm, IH. reflexivity.
Qed.

Lemma insert_sorted_le x l :
  StronglySorted str_le l -> StronglySorted str_le (insert_sorted x l).
Proof.
  induction 1 as [|y l Hl IH Hy]; simpl; [repeat constructor|].
  destruct (str_leb x y) eqn:E.
  - constructor; [constructor; assumption|].
    constructor; [exact E|].
    eapply Forall_impl; [|exact Hy].
    intros z Hz. eapply str_le_trans; [exact E | exact Hz].
  - constructor; [exact IH|].
    apply Forall_forall. intros z Hz.
    apply (Permutation_in _ (insert_sorted_perm x l)) in Hz.
    destruct Hz as [<-|Hz].
    + apply str_leb_cases. left. apply str_leb_false. exact E.
    + rewrite Forall_forall in Hy. apply Hy. exact Hz.
Qed.

Lemma sorted_le l : StronglySorted str_le (sorted l).
Proof.
  induction l as [|x l IH]; simpl; [constructor|].
  apply insert_sorted_le. exact IH.
Qed.

Lemma strict_of_nodup l :
  StronglySorted str_le l -> NoDup l -> StronglySorted str_lt l.
Proof.
  induction 1 as [|x l Hl IH Hx]; intros Hnd; [constructor|].
  inversion Hnd as [|? ? Hnotin Hnd']; subst.
  constructor; [apply IH; assumption|].
  apply Forall_forall. intros y Hy.
  rewrite Forall_forall in Hx. specialize (Hx y Hy).
  apply str_leb_cases in Hx. destruct Hx as [Hx | ->];
    [exact Hx | contradiction].
Qed.

Lemma strict_nodup l : StronglySorted str_lt l -> NoDup l.
Proof.
  induction 1 as [|x l Hl IH Hx]; constructor; [|exact IH].
  intros Hin. rewrite Forall_forall in Hx.
  exact (str_lt_irrefl x (Hx x Hin)).
Qed.

(** A strictly increasing list is determined by its elements. *)
Lemma strict_canonical l1 l2 :
  StronglySorted str_lt l1 -> StronglySorted str_lt l2 ->
  (forall x, In x l1 <-> In x l2) -> l1 = l2.
Proof.
  intros H1; revert l2.
  induction H1 as [|x l1 Hl1 IH Hx]; intros l2 H2 Heq.
  - destruct l2 as [|y l2]; [reflexivity|].
    exfalso. apply (proj2 (Heq y)). left; reflexivity.
  - destruct H2 as [|y l2 Hl2 Hy].
    + exfalso. apply (proj1 (Heq x)). left; reflexivity.
    + rewrite Forall_forall in Hx, Hy.
      assert (x = y) as ->.
      { destruct (proj1 (Heq x) (or_introl eq_refl)) as [E|Hin1];
          [symmetry; exact E|].
        destruct (proj2 (Heq y) (or_introl eq_refl)) as [E|Hin2];
          [exact E|].
        exfalso. eapply str_lt_asym; [apply Hy | apply Hx]; eassumption. }
      f_equal. apply IH; [exact Hl2|].
      intros z; split; intros Hz.
      * destruct (proj1 (Heq z) (or_intror Hz)) as [E|Hin]; [|exact Hin].
        exfalso. subst z. exact (str_lt_irrefl y (Hx y Hz)).
      * destruct (proj2 (Heq z) (or_intror Hz)) as [E|Hin]; [|exact Hin].
        exfalso. subst z. exact (str_lt_irrefl y (Hy y Hz)).
Qed.

Lemma sorted_strict l : NoDup l -> StronglySorted str_lt (sorted l).
Proof.
  intros H. apply strict_of_nodup; [apply sorted_le|].
  eapply Permutation_NoDup; [symmetry; apply sorted_perm | exact H].
Qed.

Lemma sorted_In l x : In x (sorted l) <-> In x l.
Proof.
  split; apply Permutation_in;
    [apply sorted_perm | symmetry; apply sorted_perm].
Qed.

(** The order in which a set lists its elements does not show in
    [sorted]. *)
Lemma sorted_listing_irrelevant l l' :
  NoDup l -> NoDup l' -> (forall x, In x l <-> In x l') ->
  sorted l = sorted l'.
Proof.
  intros H H' Heq.
  apply strict_canonical; try (apply sorted_strict; assumption).
  intros x. rewrite !sorted_In. apply Heq.
Qed.

(** ** [sorted_union] *)

Lemma set_of_nodup a b : NoDup (set_of a b).
Proof. apply NoDup_nodup. Qed.

Lemma set_of_In a b x : In x (set_of a b) <-> In x a \/ In x b.
Proof. unfold set_of. rewrite nodup_In. apply in_app_iff. Qed.

Lemma sorted_union_strict a b : StronglySorted str_lt (sorted_union a b).
Proof. apply sorted_strict, set_of_nodup. Qed.

Lemma sorted_union_In a b x :
  In x (sorted_union a b) <-> In x a \/ In x b.
Proof. unfold sorted_union. rewrite sorted_In. apply set_of_In. Qed.

Lemma sorted_union_nodup a b : NoDup (sorted_union a b).
Proof. apply strict_nodup, sorted_union_strict. Qed.

Lemma sorted_union_ext a b a' b' :
  (forall x, In x a \/ In x b <-> In x a' \/ In x b') ->
  sorted_union a b = sorted_union a' b'.
Proof.
  intros H. apply strict_canonical; try apply sorted_union_strict.
  intros x. rewrite !sorted_union_In. apply H.
Qed.

Lemma sorted_union_comm a b : sorted_union a b = sorted_union b a.
Proof. apply sorted_union_ext. intros x. tauto. Qed.

Lemma sorted_union_swap x a b :
  sorted_union (sorted_union x a) b = sorted_union (sorted_union x b) a.
Proof.
  apply sorted_union_ext. intros y. rewrite !sorted_union_In. tauto.
Qed.

(** ** The dict of entries *)

Lemma str_eqb_refl k : str_eqb k k = true.
Proof. apply str_eqb_eq. reflexivity. Qed.

Lemma str_eqb_neq a b : a <> b -> str_eqb a b = false.
Proof.
  intros H. destruct (str_eqb a b) eqn:E; [|reflexivity].
  apply str_eqb_eq in E. contradiction.
Qed.

Lemma dict_get_set_same k v d : dict_get k (dict_set k v d) = Some v.
Proof.
  induction d as [|[k' v'] d IH]; simpl.
  - rewrite str_eqb_refl. reflexivity.
  - destruct (str_eqb k k') eqn:E; simpl.
    + rewrite str_eqb_refl. reflexivity.
    + rewrite E. exact IH.
Qed.

Lemma dict_get_set_other k k' v d :
  k' <> k -> dict_get k' (dict_set k v d) = dict_get k' d.
Proof.
  intros Hne. induction d as [|[k0 v0] d IH]; simpl.
  - rewrite (str_eqb_neq _ _ Hne). reflexivity.
  - destruct (str_eqb k k0) eqn:E; simpl.
    + apply str_eqb_eq in E. subst k0.
      rewrite (str_eqb_neq _ _ Hne). reflexivity.
    + rewrite IH. reflexivity.
Qed.

(** Assigning to a key that is present keeps the keys and their order. *)
Lemma dict_keys_set_present k v d e :
  dict_get k d = Some e -> dict_keys (dict_set k v d) = dict_keys d.
Proof.
  induction d as [|[k0 v0] d IH]; simpl; [discriminate|].
  destruct (str_eqb k k0) eqn:E; simpl.
  - intros _. apply str_eqb_eq in E. subst. reflexivity.
  - intros H. rewrite (IH H). reflexivity.
Qed.

(** Assigning to a new key appends it. *)
Lemma dict_set_absent k v d :
  dict_get k d = None -> dict_set k v d = d ++ [(k, v)].
Proof.
  induction d as [|[k0 v0] d IH]; simpl; [reflexivity|].
  destruct (str_eqb k k0); [discriminate|].
  intros H. rewrite (IH H). reflexivity.
Qed.

Lemma dict_get_In k d e : dict_get k d = Some e -> In (k, e) d.
Proof.
  induction d as [|[k0 v0] d IH]; simpl; [discriminate|].
  destruct (str_eqb k k0) eqn:E.
  - intros H. injection H as ->. apply str_eqb_eq in E. subst.
    left; reflexivity.
  - intros H. right. apply IH. exact H.
Qed.

Lemma dict_set_In k v d k' e' :
  In (k', e') (dict_set k v d) -> (k', e') = (k, v) \/ In (k', e') d.
Proof.
  induction d as [|[k0 v0] d IH]; simpl.
  - intros [H|[]]. left. symmetry. exact H.
  - destruct (str_eqb k k0); simpl.
    + intros [H|H]; [left; symmetry; exact H | right; right; exact H].
    + intros [H|H]; [right; left; exact H|].
      destruct (IH H) as [H'|H']; [left; exact H' | right; right; exact H'].
Qed.

(** ** One row against the dict *)

Lemma upsert_get entries fresh :
  dict_get (e_id fresh) (upsert entries fresh)
  = Some match dict_get (e_id fresh) entries with
         | Some existing => merge existing fresh
         | None => fresh
         end.
Proof.
  unfold upsert.
  destruct (dict_get (e_id fresh) entries); apply dict_get_set_same.
Qed.

Lemma upsert_get_key entries fresh k :
  k = e_id fresh ->
  dict_get k (upsert entries fresh)
  = Some match dict_get k entries with
         | Some existing => merge existing fresh
         | None => fresh
         end.
Proof. intros ->. apply upsert_get. Qed.

Lemma upsert_get_other entries fresh k :
  k <> e_id fresh -> dict_get k (upsert entries fresh) = dict_get k entries.
Proof.
  intros H. unfold upsert.
  destruct (dict_get (e_id fresh) entries);
    apply dict_get_set_other; exact H.
Qed.

Lemma merge_is_sorted_union existing fresh :
  is_sorted_union (e_contacts (merge existing fresh))
                  (e_contacts existing) (e_contacts fresh)
  /\ is_sorted_union (e_credentials (merge existing fresh))
                     (e_credentials existing) (e_credentials fresh)
  /\ is_sorted_union (e_registrationNumbers (merge existing fresh))
                     (e_registrationNumbers existing)
                     (e_registrationNumbers fresh).
Proof.
  unfold is_sorted_union, sorted_set; simpl.
  repeat split; try apply sorted_union_strict; apply sorted_union_In.
Qed.

(** C7: a row whose id is already a key changes the contacts, the
    credentials and the registration numbers of the entry under that
    key to the sorted unions, leaves its id, name, specialty and source
    file as they were, leaves every other entry as it was, and adds no
    key. *)
Theorem merge_changes_only_multi_valued
    (cols : Columns) (entries : dict) (row : Row) (fresh existing : Entry) :
  candidate cols row = Some fresh ->
  dict_get (e_id fresh) entries = Some existing ->
  let entries' := scan_row cols entries row in
  dict_keys entries' = dict_keys entries
  /\ (forall k, k <> e_id fresh -> dict_get k entries' = dict_get k entries)
  /\ exists merged,
       dict_get (e_id fresh) entries' = Some merged
       /\ e_id merged = e_id existing
       /\ e_name merged = e_name existing
       /\ e_specialty merged = e_specialty existing
       /\ e_sourceFile merged = e_sourceFile existing
       /\ is_sorted_union (e_contacts merged)
                          (e_contacts existing) (e_contacts fresh)
       /\ is_sorted_union (e_credentials merged)
                          (e_credentials existing) (e_credentials fresh)
       /\ is_sorted_union (e_registrationNumbers merged)
                          (e_registrationNumbers existing)
                          (e_registrationNumbers fresh).
Proof.
  intros Hc Hget entries'. subst entries'.
  unfold scan_row. rewrite Hc.
  split; [|split].
  - unfold upsert. rewrite Hget.
    eapply dict_keys_set_present. exact Hget.
  - intros k Hk. apply upsert_get_other. exact Hk.
  - exists (merge existing fresh).
    rewrite upsert_get, Hget.
    split; [reflexivity|]. repeat (split; [reflexivity|]).
    apply merge_is_sorted_union.
Qed.

(** C2, as the code has it: two accepted rows with one id give, in
    either order, an entry with the same id and the same three
    multi-valued fields; when the id was not a key before, the name, the
    specialty and the source file are those of the row that came first,
    and when it was, the two entries are equal. *)
Theorem merge_order
    (cols : Columns) (entries : dict) (A B : Row) (a b : Entry) :
  candidate cols A = Some a ->
  candidate cols B = Some b ->
  e_id a = e_id b ->
  exists e1 e2,
    dict_get (e_id a) (scan_row cols (scan_row cols entries A) B) = Some e1
    /\ dict_get (e_id a) (scan_row cols (scan_row cols entries B) A) = Some e2
    /\ e_id e1 = e_id e2
    /\ e_contacts e1 = e_contacts e2
    /\ e_credentials e1 = e_credentials e2
    /\ e_registrationNumbers e1 = e_registrationNumbers e2
    /\ (dict_get (e_id a) entries = None ->
        (e_name e1, e_specialty e1, e_sourceFile e1)
        = (e_name a, e_specialty a, e_sourceFile a)
        /\ (e_name e2, e_specialty e2, e_sourceFile e2)
           = (e_name b, e_specialty b, e_sourceFile b))
    /\ (dict_get (e_id a) entries <> None -> e1 = e2).
Proof.
  intros Ha Hb Hid. unfold scan_row. rewrite Ha, Hb.
  exists (merge match dict_get (e_id a) entries with
                | Some existing => merge existing a
                | None => a
                end b),
         (merge match dict_get (e_id a) entries with
                | Some existing => merge existing b
                | None => b
                end a).
  split.
  { rewrite (upsert_get_key _ b (e_id a) Hid).
    rewrite (upsert_get_key _ a (e_id a) eq_refl). reflexivity. }
  split.
  { rewrite (upsert_get_key _ a (e_id a) eq_refl).
    rewrite (upsert_get_key _ b (e_id a) Hid). reflexivity. }
  destruct (dict_get (e_id a) entries) as [existing|]; simpl.
  - repeat split; try apply sorted_union_swap; try discriminate.
    intros _. unfold merge; simpl. f_equal; apply sorted_union_swap.
  - repeat split; try apply sorted_union_comm; try assumption.
    intros H; contradiction.
Qed.

(** ** The identity key *)

Lemma hex_word_length w : length (Sha1.hex_word w) = 8.
Proof. unfold Sha1.hex_word. rewrite length_map. reflexivity. Qed.

Lemma hexdigest_length msg : length (Sha1.hexdigest msg) = 40.
Proof.
  unfold Sha1.hexdigest. cbv zeta.
  rewrite !length_app, !hex_word_length. reflexivity.
Qed.

Lemma nibble_range x : (0 <= Z.land x 15 < 16)%Z.
Proof.
  change 15%Z with (Z.ones 4). rewrite Z.land_ones by lia.
  apply Z.mod_pos_bound. reflexivity.
Qed.

Lemma hex_digit_is_hex n : (0 <= n < 16)%Z -> is_hex (Sha1.hex_digit n).
Proof.
  intros H. unfold is_hex, Sha1.hex_digit. apply nth_In.
  change (length (lit "0123456789abcdef")) with 16. lia.
Qed.

Lemma hex_word_is_hex w : Forall is_hex (Sha1.hex_word w).
Proof.
  unfold Sha1.hex_word. apply Forall_forall. intros c Hc.
  apply in_map_iff in Hc. destruct Hc as [sh [<- _]].
  apply hex_digit_is_hex, nibble_range.
Qed.

Lemma hexdigest_is_hex msg : Forall is_hex (Sha1.hexdigest msg).
Proof.
  unfold Sha1.hexdigest. cbv zeta.
  repeat (apply Forall_app; split); apply hex_word_is_hex.
Qed.

Lemma Forall_prefix {A} (P : A -> Prop) n l :
  Forall P l -> Forall P (firstn n l).
Proof.
  intros H. rewrite <- (firstn_skipn n l) in H.
  apply Forall_app in H. apply H.
Qed.

Lemma entry_id_of_length name regs source :
  length (entry_id_of name regs source) = 12.
Proof.
  unfold entry_id_of. rewrite length_firstn, hexdigest_length. reflexivity.
Qed.

Lemma entry_id_of_is_hex name regs source :
  Forall is_hex (entry_id_of name regs source).
Proof. apply Forall_prefix, hexdigest_is_hex. Qed.

(** What an accepted row computes. *)
Lemma candidate_inv cols row fresh :
  candidate cols row = Some fresh ->
  exists value,
    nth_error row (name_idx cols) = Some (TextCell value)
    /\ looks_like_doctor (normalize_whitespace value) = true
    /\ e_name fresh = normalize_whitespace value
    /\ e_contacts fresh
       = split_multi_value (normalized_or_empty row (contact_idx cols))
    /\ e_credentials fresh
       = split_multi_value (normalized_or_empty row (cred_idx cols))
    /\ e_registrationNumbers fresh
       = split_multi_value (normalized_or_empty row (reg_idx cols))
    /\ e_id fresh
       = entry_id_of (e_name fresh) (e_registrationNumbers fresh)
                     (e_sourceFile fresh)
    /\ e_sourceFile fresh
       = match cell_text row (source_idx cols) with
         | Some v => v
         | None => []
         end
    /\ e_specialty fresh
       = infer_specialty [normalized_or_empty row (cred_idx cols);
                          normalized_or_empty row (reg_idx cols)].
Proof.
  unfold candidate.
  destruct (nth_error row (name_idx cols)) as [[| |value]|];
    try discriminate.
  destruct (looks_like_doctor (normalize_whitespace value)) eqn:E;
    [|discriminate].
  cbn [negb]. intros H. injection H as <-.
  exists value. cbn [e_name e_contacts e_credentials e_registrationNumbers
                     e_id e_sourceFile e_specialty].
  repeat split; first [exact E | reflexivity].
Qed.

(** ** The scan keeps the dict keyed by id *)

Lemma upsert_well_keyed entries fresh :
  well_keyed entries -> well_keyed (upsert entries fresh).
Proof.
  intros Hwk k e Hin. unfold upsert in Hin.
  destruct (dict_get (e_id fresh) entries) as [existing|] eqn:Hget;
    apply dict_set_In in Hin; destruct Hin as [Heq|Hin];
    try (apply Hwk; exact Hin); injection Heq as -> ->.
  - cbn [merge e_id]. apply Hwk. apply dict_get_In. exact Hget.
  - reflexivity.
Qed.

Lemma scan_row_well_keyed cols entries row :
  well_keyed entries -> well_keyed (scan_row cols entries row).
Proof.
  intros H. unfold scan_row.
  destruct (candidate cols row); [apply upsert_well_keyed|]; exact H.
Qed.

Lemma scan_row_keeps_key cols entries row k :
  dict_get k entries <> None -> dict_get k (scan_row cols entries row) <> None.
Proof.
  intros H. unfold scan_row.
  destruct (candidate cols row) as [fresh|]; [|exact H].
  destruct (str_eq_dec k (e_id fresh)) as [->|Hne].
  - rewrite upsert_get. discriminate.
  - rewrite upsert_get_other by exact Hne. exact H.
Qed.

Lemma scan_row_has_key cols entries row fresh :
  candidate cols row = Some fresh ->
  dict_get (e_id fresh) (scan_row cols entries row) <> None.
Proof.
  intros H. unfold scan_row. rewrite H, upsert_get. discriminate.
Qed.

Section ScanFrom.
Variable cols : Columns.

Lemma scan_from_well_keyed rows entries :
  well_keyed entries -> well_keyed (fold_left (scan_row cols) rows entries).
Proof.
  revert entries; induction rows as [|row rows IH]; intros entries H;
    [exact H|].
  simpl. apply IH, scan_row_well_keyed, H.
Qed.

Lemma scan_from_keeps_key rows entries k :
  dict_get k entries <> None ->
  dict_get k (fold_left (scan_row cols) rows entries) <> None.
Proof.
  revert entries; induction rows as [|row rows IH]; intros entries H;
    [exact H|].
  simpl. apply IH, scan_row_keeps_key, H.
Qed.

Lemma scan_from_has_key rows entries row fresh :
  In row rows -> candidate cols row = Some fresh ->
  dict_get (e_id fresh) (fold_left (scan_row cols) rows entries) <> None.
Proof.
  revert entries; induction rows as [|r rows IH]; intros entries Hin Hc;
    [destruct Hin|].
  simpl. destruct Hin as [->|Hin].
  - apply scan_from_keeps_key, scan_row_has_key, Hc.
  - apply IH; assumption.
Qed.
End ScanFrom.

Lemma scan_well_keyed cols rows : well_keyed (scan cols rows).
Proof. apply scan_from_well_keyed. intros k e []. Qed.

(** Every accepted row of the sheet has its entry in the output, under
    the id the row computes. *)
Lemma scan_has_entry cols rows row fresh :
  In row rows -> candidate cols row = Some fresh ->
  exists e,
    dict_get (e_id fresh) (scan cols rows) = Some e
    /\ In e (dict_values (scan cols rows))
    /\ e_id e = e_id fresh.
Proof.
  intros Hin Hc.
  pose proof (scan_from_has_key cols rows [] row fresh Hin Hc) as H.
  fold (scan cols rows) in H.
  destruct (dict_get (e_id fresh) (scan cols rows)) as [e|] eqn:Hget;
    [|contradiction].
  apply dict_get_In in Hget.
  exists e. split; [reflexivity|]. split.
  - unfold dict_values. apply in_map_iff.
    exists (e_id fresh, e). split; [reflexivity | exact Hget].
  - apply (scan_well_keyed cols rows). exact Hget.
Qed.

(** C4: the entry of an accepted row carries as id the first 12
    characters of the hexadecimal SHA-1 digest of the lower-cased
    normalized name, a bar, and the first registration number or else
    the lower-cased source file; the id has exactly 12 hexadecimal
    characters, and rows that agree on name, registration numbers and
    source file agree on it. *)
Theorem entry_id_is_truncated_digest
    (cols : Columns) (rows : list Row) (row : Row) (fresh : Entry) :
  In row rows ->
  candidate cols row = Some fresh ->
  let basis :=
    lower (e_name fresh) ++ lit "|"
    ++ match e_registrationNumbers fresh with
       | r :: _ => r
       | [] => lower (e_sourceFile fresh)
       end in
  let id := firstn 12 (Sha1.hexdigest (encode_utf8 basis)) in
  (exists value,
      nth_error row (name_idx cols) = Some (TextCell value)
      /\ e_name fresh = normalize_whitespace value)
  /\ e_registrationNumbers fresh
     = split_multi_value (normalized_or_empty row (reg_idx cols))
  /\ e_sourceFile fresh
     = match cell_text row (source_idx cols) with
       | Some v => v
       | None => []
       end
  /\ length id = 12
  /\ Forall is_hex id
  /\ (exists e,
        dict_get id (scan cols rows) = Some e
        /\ In e (dict_values (scan cols rows))
        /\ e_id e = id)
  /\ (forall cols' row' fresh',
        candidate cols' row' = Some fresh' ->
        e_name fresh' = e_name fresh ->
        e_registrationNumbers fresh' = e_registrationNumbers fresh ->
        e_sourceFile fresh' = e_sourceFile fresh ->
        e_id fresh' = id).
Proof.
  intros Hin Hc basis id.
  destruct (candidate_inv _ _ _ Hc)
    as (value & Hcell & _ & Hname & _ & _ & Hregs & Hid & Hsrc & _).
  change id with (entry_id_of (e_name fresh) (e_registrationNumbers fresh)
                              (e_sourceFile fresh)).
  split; [exists value; split; assumption|].
  split; [exact Hregs|]. split; [exact Hsrc|].
  split; [apply entry_id_of_length|].
  split; [apply entry_id_of_is_hex|].
  split.
  - rewrite <- Hid. exact (scan_has_entry cols rows row fresh Hin Hc).
  - intros cols' row' fresh' Hc' Hn Hr Hs.
    destruct (candidate_inv _ _ _ Hc')
      as (_ & _ & _ & _ & _ & _ & _ & Hid' & _).
    rewrite Hid', Hn, Hr, Hs. reflexivity.
Qed.

(** ** The specialty *)

Lemma infer_specialty_combined fields :
  infer_specialty fields
  = first_specialty SPECIALTY_KEYWORDS (combined_text fields).
Proof.
  unfold infer_specialty, combined_text. cbv zeta.
  rewrite <- join_lower. reflexivity.
Qed.

Lemma first_specialty_first_match table pre kw label post combined :
  table = pre ++ (kw, label) :: post ->
  substring kw combined ->
  (forall kw' label', In (kw', label') pre -> ~ substring kw' combined) ->
  first_specialty table combined = label.
Proof.
  intros -> Hkw. induction pre as [|[kw0 l0] pre IH]; intros Hpre; simpl.
  - apply contains_spec in Hkw. rewrite Hkw. reflexivity.
  - destruct (contains kw0 combined) eqn:E.
    + apply contains_spec in E. exfalso.
      apply (Hpre kw0 l0); [left; reflexivity | exact E].
    + apply IH. intros kw' label' Hin. apply (Hpre kw' label').
      right; exact Hin.
Qed.

Lemma first_specialty_no_match table combined :
  (forall kw label, In (kw, label) table -> ~ substring kw combined) ->
  first_specialty table combined = lit "General Practice".
Proof.
  induction table as [|[kw0 l0] table IH]; intros H; simpl; [reflexivity|].
  destruct (contains kw0 combined) eqn:E.
  - apply contains_spec in E. exfalso.
    apply (H kw0 l0); [left; reflexivity | exact E].
  - apply IH. intros kw label Hin. apply (H kw label). right; exact Hin.
Qed.

(** C6: [infer_specialty] gives the label of the first keyword, in the
    order of [SPECIALTY_KEYWORDS], that occurs in the lower-cased,
    space-joined text of the non-empty fields, and "General Practice"
    when none occurs; a text with both "cardio" and "derma" gives
    "Cardiology". *)
Theorem infer_specialty_first_keyword (fields : list str) :
  (forall pre kw label post,
      SPECIALTY_KEYWORDS = pre ++ (kw, label) :: post ->
      substring kw (combined_text fields) ->
      (forall kw' label', In (kw', label') pre ->
                          ~ substring kw' (combined_text fields)) ->
      infer_specialty fields = label)
  /\ ((forall kw label, In (kw, label) SPECIALTY_KEYWORDS ->
                        ~ substring kw (combined_text fields)) ->
      infer_specialty fields = lit "General Practice")
  /\ (substring (lit "cardio") (combined_text fields) ->
      substring (lit "derma") (combined_text fields) ->
      infer_specialty fields = lit "Cardiology").
Proof.
  rewrite infer_specialty_combined. split; [|split].
  - intros pre kw label post. apply first_specialty_first_match.
  - apply first_specialty_no_match.
  - intros Hc _.
    apply (first_specialty_first_match _ [] (lit "cardio") (lit "Cardiology")
             (tl SPECIALTY_KEYWORDS));
      [reflexivity | exact Hc | intros ? ? []].
Qed.

(** ** [build_directory] *)

(** C8: without the input file the run raises [FileNotFoundError] and
    leaves the world as it was: no row is read, the output directory
    and the output file are neither created nor written, and nothing is
    printed. *)
Theorem missing_input_is_fatal (w : World) :
  numbers_file w = None ->
  build_directory w = (w, Raised FileNotFoundError)
  /\ output_file (fst (build_directory w)) = output_file w
  /\ output_dir (fst (build_directory w)) = output_dir w.
Proof.
  intros H. unfold build_directory. rewrite H.
  repeat split.
Qed.

(** Any exception leaves the world as it was. *)
Lemma raise_leaves_world w e :
  snd (build_directory w) = Raised e -> fst (build_directory w) = w.
Proof.
  unfold build_directory.
  destruct (numbers_file w) as [doc|]; [|reflexivity].
  destruct (extract doc); [reflexivity | discriminate].
Qed.

(** ** The sheet of the specification, end to end *)

Example jane_row_entry :
  dict_values (scan header_columns [row_jane]) = [entry_jane].
Proof. vm_compute. reflexivity. Qed.

Example clinic_is_rejected :
  looks_like_doctor (lit "Acme Medical Clinic") = false
  /\ looks_like_doctor (lit "Paracetamol 500mg") = false.
Proof. split; reflexivity. Qed.

Example doe_rows_merge :
  build_directory (world_with (Some (document_of [row_doe_a; row_doe_b])))
  = (mkWorld (Some (document_of [row_doe_a; row_doe_b])) true
             (Some [entry_doe_ab]) [1],
     Returned).
Proof. vm_compute. reflexivity. Qed.

Example missing_column_is_fatal :
  build_directory (world_with (Some [[[text_row ["Doctor Name"%string]]]]))
  = (world_with (Some [[[text_row ["Doctor Name"%string]]]]),
     Raised ValueError).
Proof. vm_compute. reflexivity. Qed.

(** ** Values that were normalized split into non-empty fragments *)

Lemma join_chars d ws c :
  In c (join d ws) -> In c d \/ exists w, In w ws /\ In c w.
Proof.
  induction ws as [|w ws IH]; [intros []|].
  destruct ws as [|w' ws'].
  - intros H. right. exists w. split; [left; reflexivity | exact H].
  - change (join d (w :: w' :: ws')) with (w ++ d ++ join d (w' :: ws')).
    rewrite !in_app_iff. intros [H|[H|H]].
    + right. exists w. split; [left; reflexivity | exact H].
    + left. exact H.
    + destruct (IH H) as [H'|[w0 [Hw0 Hc]]]; [left; exact H'|].
      right. exists w0. split; [right; exact Hw0 | exact Hc].
Qed.

(** In a normalized string every whitespace character is a space. *)
Lemma normalize_whitespace_chars s c :
  In c (normalize_whitespace s) -> c = " "%char \/ isspace c = false.
Proof.
  intros H. apply join_chars in H. destruct H as [[<-|[]]|[w [Hw Hc]]].
  - left; reflexivity.
  - right. pose proof (str_split_words s) as Hs.
    rewrite Forall_forall in Hs. destruct (Hs w Hw) as [_ Hfree].
    unfold sep_free in Hfree. rewrite Forall_forall in Hfree.
    apply Hfree. exact Hc.
Qed.

Lemma lstrip_suffix p s : exists junk, s = junk ++ lstrip p s.
Proof.
  induction s as [|c s [junk IH]]; simpl; [exists []; reflexivity|].
  destruct (p c).
  - exists (c :: junk). simpl. rewrite <- IH. reflexivity.
  - exists []. reflexivity.
Qed.

Lemma lstrip_head p s c t : lstrip p s = c :: t -> p c = false.
Proof.
  induction s as [|a s IH]; simpl; [discriminate|].
  destruct (p a) eqn:E; [exact IH|].
  intros H. injection H as -> _. exact E.
Qed.

Lemma rstrip_prefix p s : exists junk, s = rstrip p s ++ junk.
Proof.
  unfold rstrip. destruct (lstrip_suffix p (rev s)) as [junk H].
  exists (rev junk). rewrite <- rev_app_distr, <- H, rev_involutive.
  reflexivity.
Qed.

Lemma strip_head p s c t : strip p s = c :: t -> p c = false /\ In c s.
Proof.
  unfold strip. intros H.
  destruct (rstrip_prefix p (lstrip p s)) as [junk Hj].
  rewrite H in Hj. split.
  - eapply lstrip_head. exact Hj.
  - destruct (lstrip_suffix p s) as [junk' Hs].
    rewrite Hs, Hj. apply in_or_app. right. left. reflexivity.
Qed.

Lemma normalize_whitespace_nonempty c t :
  isspace c = false -> normalize_whitespace (c :: t) <> [].
Proof.
  intros H. unfold normalize_whitespace, str_split, re_split.
  cbn [split_runs]. rewrite H.
  destruct (split_runs isspace false t) as [|h r]; cbn [cons_head];
    [discriminate|].
  cbn [filter nonempty].
  destruct (filter nonempty r); discriminate.
Qed.

Lemma split_multi_value_normalized v x :
  In x (split_multi_value (normalize_whitespace v)) -> x <> [].
Proof.
  unfold split_multi_value.
  destruct (normalize_whitespace v) as [|a s] eqn:Hn; [intros []|].
  rewrite <- Hn. intros H.
  apply in_map_iff in H. destruct H as [part [<- Hpart]].
  apply filter_In in Hpart. destruct Hpart as [Hin Hne].
  destruct (strip space_or_semi part) as [|c t] eqn:Hs; [discriminate|].
  destruct (strip_head _ _ _ _ Hs) as [Hc Hcin].
  apply normalize_whitespace_nonempty.
  destruct (normalize_whitespace_chars v c) as [->|Hsp];
    [|discriminate | exact Hsp].
  eapply split_runs_chars; eassumption.
Qed.

(** The multi-valued fields of an accepted row hold no empty string:
    the loop normalizes each cell before it splits it. *)
Lemma candidate_values_nonempty cols row fresh x :
  candidate cols row = Some fresh ->
  In x (e_contacts fresh ++ e_credentials fresh
        ++ e_registrationNumbers fresh) ->
  x <> [].
Proof.
  intros Hc Hx.
  destruct (candidate_inv _ _ _ Hc) as (_ & _ & _ & _ & H1 & H2 & H3 & _).
  rewrite H1, H2, H3 in Hx. unfold normalized_or_empty in Hx.
  rewrite !in_app_iff in Hx.
  destruct Hx as [Hx|[Hx|Hx]];
    match type of Hx with
    | context [cell_text ?r ?i] =>
        destruct (cell_text r i);
        [eapply split_multi_value_normalized; exact Hx | destruct Hx]
    end.
Qed.

(** ** Where the code leaves the specification *)

(** C5: on a string that is one tab, [split_multi_value] returns one
    element, the empty string: the filter tests the fragment stripped of
    spaces and semicolons, and the element is that fragment normalized. *)
Theorem split_multi_value_tab :
  split_multi_value ["009"%char] = [[]]
  /\ split_multi_value (lit "a;" ++ ["009"%char] ++ lit ";b")
     = [lit "a"; []; lit "b"].
Proof. split; reflexivity. Qed.

(** C3: an entry that was never merged keeps the fragments of its cell
    in the order of the cell, repeated ones included; only the merge
    sorts and removes repetitions. *)
Theorem first_occurrence_keeps_cell_order :
  build_directory (world_with (Some (document_of [row_doe_c])))
  = (mkWorld (Some (document_of [row_doe_c])) true (Some [entry_doe_c]) [1],
     Returned)
  /\ e_contacts entry_doe_c = map lit ["b@x.com"; "a@x.com"; "b@x.com"]%string
  /\ ~ sorted_set (e_contacts entry_doe_c)
  /\ ~ NoDup (e_contacts entry_doe_c).
Proof.
  split; [vm_compute; reflexivity|].
  split; [reflexivity|].
  split.
  - intros H. inversion H as [|? ? _ Hall]; subst.
    inversion Hall as [|? ? Hlt _]; subst.
    vm_compute in Hlt. discriminate.
  - intros H. inversion H as [|? ? Hnotin _]; subst.
    apply Hnotin. right; left; reflexivity.
Qed.

(** C2, as the specification states it, fails: the two John Doe rows
    have one id, and the entry takes its specialty and its source file
    from the row that comes first. *)
Lemma merge_order_counterexample :
  ~ (forall (cols : Columns) (A B : Row) (a b e1 e2 : Entry),
        candidate cols A = Some a ->
        candidate cols B = Some b ->
        e_id a = e_id b ->
        dict_get (e_id a) (scan cols [A; B]) = Some e1 ->
        dict_get (e_id a) (scan cols [B; A]) = Some e2 ->
        same_entry_up_to_order e1 e2).
Proof.
  intros H.
  assert (same_entry_up_to_order entry_doe_ab entry_doe_ba) as Hsame.
  { apply (H header_columns row_doe_a row_doe_b entry_doe_a entry_doe_b);
      vm_compute; reflexivity. }
  destruct Hsame as (_ & _ & Hspec & _).
  vm_compute in Hspec. discriminate.
Qed.

(** ** The theorems at the sample rows *)

Lemma merge_order_witness :
  exists e1 e2,
    dict_get (e_id entry_doe_a)
      (scan_row header_columns (scan_row header_columns [] row_doe_a)
                row_doe_b) = Some e1
    /\ dict_get (e_id entry_doe_a)
         (scan_row header_columns (scan_row header_columns [] row_doe_b)
                   row_doe_a) = Some e2
    /\ e_id e1 = e_id e2
    /\ e_contacts e1 = e_contacts e2
    /\ e_credentials e1 = e_credentials e2
    /\ e_registrationNumbers e1 = e_registrationNumbers e2
    /\ (dict_get (e_id entry_doe_a) [] = None ->
        (e_name e1, e_specialty e1, e_sourceFile e1)
        = (e_name entry_doe_a, e_specialty entry_doe_a,
           e_sourceFile entry_doe_a)
        /\ (e_name e2, e_specialty e2, e_sourceFile e2)
           = (e_name entry_doe_b, e_specialty entry_doe_b,
              e_sourceFile entry_doe_b))
    /\ (dict_get (e_id entry_doe_a) [] <> None -> e1 = e2).
Proof.
  apply (merge_order header_columns [] row_doe_a row_doe_b
                     entry_doe_a entry_doe_b);
    vm_compute; reflexivity.
Defined.

Lemma merge_changes_only_multi_valued_witness :
  let entries := [(e_id entry_doe_a, entry_doe_a)] in
  let entries' := scan_row header_columns entries row_doe_b in
  dict_keys entries' = dict_keys entries
  /\ (forall k, k <> e_id entry_doe_b ->
                dict_get k entries' = dict_get k entries)
  /\ exists merged,
       dict_get (e_id entry_doe_b) entries' = Some merged
       /\ e_id merged = e_id entry_doe_a
       /\ e_name merged = e_name entry_doe_a
       /\ e_specialty merged = e_specialty entry_doe_a
       /\ e_sourceFile merged = e_sourceFile entry_doe_a
       /\ is_sorted_union (e_contacts merged)
            (e_contacts entry_doe_a) (e_contacts entry_doe_b)
       /\ is_sorted_union (e_credentials merged)
            (e_credentials entry_doe_a) (e_credentials entry_doe_b)
       /\ is_sorted_union (e_registrationNumbers merged)
            (e_registrationNumbers entry_doe_a)
            (e_registrationNumbers entry_doe_b).
Proof.
  apply (merge_changes_only_multi_valued header_columns
           [(e_id entry_doe_a, entry_doe_a)] row_doe_b
           entry_doe_b entry_doe_a);
    vm_compute; reflexivity.
Defined.

Lemma entry_id_is_truncated_digest_witness :
  In row_jane [row_jane]
  /\ candidate header_columns row_jane = Some entry_jane
  /\ exists e,
       dict_get (lit "8ee8f370cd2c") (scan header_columns [row_jane]) = Some e
       /\ In e (dict_values (scan header_columns [row_jane]))
       /\ e_id e = lit "8ee8f370cd2c".
Proof.
  assert (candidate header_columns row_jane = Some entry_jane) as Hc
    by (vm_compute; reflexivity).
  split; [left; reflexivity|]. split; [exact Hc|].
  destruct (entry_id_is_truncated_digest header_columns [row_jane] row_jane
              entry_jane (or_introl eq_refl) Hc)
    as (_ & _ & _ & _ & _ & He & _).
  exact He.
Defined.

Lemma infer_specialty_first_keyword_witness :
  infer_specialty [lit "Dermatology, Cardiology"; lit "R1"] = lit "Cardiology"
  /\ infer_specialty [lit "MBBS"; lit ""] = lit "General Practice".
Proof.
  split.
  - apply (proj2 (proj2 (infer_specialty_first_keyword
                           [lit "Dermatology, Cardiology"; lit "R1"])));
      apply contains_spec; vm_compute; reflexivity.
  - apply (proj1 (proj2 (infer_specialty_first_keyword
                           [lit "MBBS"; lit ""]))).
    intros kw label Hin Hsub. apply contains_spec in Hsub.
    revert Hsub.
    repeat (destruct Hin as [Hin|Hin];
            [injection Hin as <- _; vm_compute; discriminate|]).
    destruct Hin.
Defined.

Lemma missing_input_is_fatal_witness :
  numbers_file (world_with None) = None
  /\ build_directory (world_with None)
     = (world_with None, Raised FileNotFoundError).
Proof.
  split; [reflexivity|].
  exact (proj1 (missing_input_is_fatal (world_with None) eq_refl)).
Defined.

(** ** What [normalize_whitespace] keeps and what it gives *)

Section SplitText.
Variable sep : ascii -> bool.

(** The pieces of a split, put end to end, are the characters that are
    no separators. *)
Lemma concat_split_runs b s :
  concat (split_runs sep b s) = filter (fun c => negb (sep c)) s.
Proof.
  revert b; induction s as [|c s IH]; intros b; cbn [split_runs filter].
  - reflexivity.
  - destruct (sep c) eqn:Hc; cbn [negb].
    + destruct b; cbn [concat app]; apply IH.
    + rewrite <- (IH false).
      destruct (split_runs sep false s); reflexivity.
Qed.

Lemma concat_filter_nonempty (l : list str) :
  concat (filter nonempty l) = concat l.
Proof.
  induction l as [|w l IH]; [reflexivity|].
  destruct w; simpl; rewrite IH; reflexivity.
Qed.

Lemma filter_sep_free w :
  sep_free sep w -> filter (fun c => negb (sep c)) w = w.
Proof.
  induction 1 as [|c w Hc _ IH]; [reflexivity|].
  simpl. rewrite Hc. simpl. rewrite IH. reflexivity.
Qed.

Lemma filter_join d ws :
  sep d = true -> Forall (word sep) ws ->
  filter (fun c => negb (sep c)) (join [d] ws) = concat ws.
Proof.
  intros Hd. induction 1 as [|w ws [_ Hw] _ IH]; [reflexivity|].
  destruct ws as [|w' ws'].
  - simpl. rewrite app_nil_r. apply filter_sep_free. exact Hw.
  - change (join [d] (w :: w' :: ws'))
      with (w ++ d :: join [d] (w' :: ws')).
    rewrite filter_app. cbn [filter]. rewrite Hd. cbn [negb].
    rewrite IH, filter_sep_free by exact Hw. reflexivity.
Qed.

Lemma split_runs_head_word c s h t :
  sep c = false -> split_runs sep false (c :: s) = h :: t -> h <> [].
Proof.
  intros Hc. cbn [split_runs]. rewrite Hc.
  destruct (split_runs sep false s); cbn [cons_head];
    intros H; injection H as <- _; discriminate.
Qed.

(** The joined words are never longer than the string they were read
    from. *)
Lemma tokens_of_join_length d s ts :
  tokens_of sep s ts ->
  length (join [d] ts) <= length s
  /\ (forall c s', s = c :: s' -> sep c = true ->
                   length (join [d] ts) <= length s').
Proof.
  induction 1 as [|c s ts Hc _ [IH1 IH2]|w s ts Hw Hs Ht [IH1 IH2]].
  - split; [simpl; lia | intros; discriminate].
  - split; [simpl; lia|].
    intros c0 s0 E _. injection E as _ <-. exact IH1.
  - split.
    + destruct ts as [|t ts'].
      * cbn [join]. rewrite length_app. lia.
      * change (join [d] (w :: t :: ts'))
          with (w ++ d :: join [d] (t :: ts')).
        rewrite !length_app. cbn [length].
        destruct Hs as [->|(c & s' & -> & Hc)].
        -- apply tokens_of_fields in Ht. simpl in Ht. discriminate.
        -- specialize (IH2 c s' eq_refl Hc). cbn [length]. lia.
    + intros c s' E Hc. destruct Hw as [Hne Hfree].
      destruct w as [|a w]; [contradiction|].
      injection E as -> _. inversion Hfree; congruence.
Qed.
End SplitText.

Lemma visible_normalize_whitespace s :
  visible (normalize_whitespace s) = visible s.
Proof.
  unfold visible, normalize_whitespace, str_split, re_split.
  change (lit " ") with [" "%char].
  rewrite (filter_join isspace " "%char)
    by (reflexivity || apply fields_sep_free).
  rewrite concat_filter_nonempty. apply concat_split_runs.
Qed.

Lemma visible_In c s : In c (visible s) <-> In c s /\ isspace c = false.
Proof.
  unfold visible. rewrite filter_In, negb_true_iff. reflexivity.
Qed.

(** A character that is no whitespace survives the normalization. *)
Lemma normalize_whitespace_keeps c s :
  In c s -> isspace c = false -> In c (normalize_whitespace s).
Proof.
  intros Hin Hc.
  assert (In c (visible (normalize_whitespace s))) as H
    by (rewrite visible_normalize_whitespace; apply visible_In; auto).
  apply visible_In in H. apply H.
Qed.

(** ** The normal form *)

Lemma word_no_space w : word isspace w -> ~ In " "%char w.
Proof.
  intros [_ Hfree] Hin. unfold sep_free in Hfree.
  rewrite Forall_forall in Hfree. specialize (Hfree _ Hin). discriminate.
Qed.

Lemma join_words_head ws :
  Forall (word isspace) ws -> ws <> [] ->
  exists a t, join (lit " ") ws = a :: t /\ isspace a = false.
Proof.
  intros H Hne. destruct ws as [|w rest]; [contradiction|].
  inversion H as [|? ? [Hw Hfree] _]; subst.
  destruct w as [|a w]; [contradiction|].
  inversion Hfree; subst.
  destruct rest; cbn [join app]; eexists; eexists; split;
    try reflexivity; assumption.
Qed.

Lemma join_words_last ws :
  Forall (word isspace) ws ->
  forall t, join (lit " ") ws <> t ++ [" "%char].
Proof.
  induction 1 as [|w ws Hw Hws IH]; intros t E.
  - destruct t; discriminate.
  - destruct ws as [|w' ws'].
    + cbn [join] in E. apply (word_no_space w Hw).
      rewrite E. apply in_or_app. right. left. reflexivity.
    + change (join (lit " ") (w :: w' :: ws'))
        with (w ++ " "%char :: join (lit " ") (w' :: ws')) in E.
      destruct (join_words_head (w' :: ws') Hws) as (a & r & Hj & _);
        [discriminate|].
      assert (join (lit " ") (w' :: ws') <> []) as Hne
        by (rewrite Hj; discriminate).
      destruct (exists_last Hne) as (J0 & y & HJ).
      rewrite HJ in E.
      change (w ++ " "%char :: J0 ++ [y])
        with (w ++ (" "%char :: J0) ++ [y]) in E.
      rewrite app_assoc in E. apply app_inj_tail in E.
      destruct E as [_ ->]. exact (IH J0 HJ).
Qed.

Lemma space_then_words w J :
  ~ In " "%char w ->
  (forall t, J <> " "%char :: t) ->
  (forall pre post, J <> pre ++ " "%char :: " "%char :: post) ->
  forall pre post, w ++ " "%char :: J <> pre ++ " "%char :: " "%char :: post.
Proof.
  intros Hw Hhead Hdouble. induction w as [|a w IH]; intros pre post E.
  - destruct pre as [|x pre].
    + injection E as E. exact (Hhead _ E).
    + injection E as _ E. exact (Hdouble _ _ E).
  - destruct pre as [|x pre]; injection E as E1 E2.
    + apply Hw. left. exact E1.
    + apply (IH (fun H => Hw (or_intror H)) pre post). exact E2.
Qed.

Lemma join_words_no_double ws :
  Forall (word isspace) ws ->
  forall pre post,
    join (lit " ") ws <> pre ++ " "%char :: " "%char :: post.
Proof.
  induction 1 as [|w ws Hw Hws IH]; intros pre post E.
  - destruct pre; discriminate.
  - destruct ws as [|w' ws'].
    + cbn [join] in E. apply (word_no_space w Hw).
      rewrite E. apply in_or_app. right. left. reflexivity.
    + change (join (lit " ") (w :: w' :: ws'))
        with (w ++ " "%char :: join (lit " ") (w' :: ws')) in E.
      revert E. apply space_then_words; [apply word_no_space, Hw | | exact IH].
      intros t Et.
      destruct (join_words_head (w' :: ws') Hws) as (a & r & Hj & Ha);
        [discriminate|].
      rewrite Hj in Et. injection Et as -> _. discriminate.
Qed.

Lemma join_words_normal_form ws :
  Forall (word isspace) ws -> normal_form (join (lit " ") ws).
Proof.
  intros H. split; [|split; [|split]].
  - intros c Hc Hsp. apply join_chars in Hc.
    destruct Hc as [[<-|[]]|(w & Hw & Hc)]; [reflexivity|].
    rewrite Forall_forall in H. destruct (H w Hw) as [_ Hfree].
    unfold sep_free in Hfree. rewrite Forall_forall in Hfree.
    rewrite (Hfree c Hc) in Hsp. discriminate.
  - intros t E. destruct ws as [|w ws]; [discriminate|].
    destruct (join_words_head (w :: ws) H) as (a & r & Hj & Ha);
      [discriminate|].
    rewrite Hj in E. injection E as -> _. discriminate.
  - apply join_words_last, H.
  - apply join_words_no_double, H.
Qed.

Lemma normal_form_after_space h r :
  normal_form (h ++ " "%char :: r) -> r <> [] /\ normal_form r.
Proof.
  intros (H1 & H2 & H3 & H4). split.
  - intros ->. exact (H3 h eq_refl).
  - split; [|split; [|split]].
    + intros c Hc. apply H1. apply in_or_app. right. right. exact Hc.
    + intros t ->. exact (H4 h t eq_refl).
    + intros t ->. apply (H3 (h ++ " "%char :: t)).
      rewrite <- app_assoc. reflexivity.
    + intros pre post ->. apply (H4 (h ++ " "%char :: pre) post).
      rewrite <- app_assoc. reflexivity.
Qed.

Lemma normal_form_fixed_bounded n s :
  length s <= n -> normal_form s -> normalize_whitespace s = s.
Proof.
  revert s; induction n as [|n IH]; intros s Hn Hnf.
  - destruct s; [reflexivity | simpl in Hn; lia].
  - destruct s as [|c s']; [reflexivity|].
    assert (isspace c = false) as Hc.
    { destruct (isspace c) eqn:E; [|reflexivity]. exfalso.
      destruct Hnf as (H1 & H2 & _).
      apply (H2 s'). f_equal. apply H1; [left; reflexivity | exact E]. }
    unfold normalize_whitespace, str_split, re_split.
    destruct (split_runs isspace false (c :: s')) as [|h t] eqn:E.
    { exfalso. eapply split_runs_not_nil. exact E. }
    pose proof (split_runs_head_word isspace _ _ _ _ Hc E) as Hne.
    assert (nonempty h = true) as Hb
      by (destruct h; [exfalso; apply Hne |]; reflexivity).
    destruct (split_runs_head isspace _ _ _ E)
      as [Hfree [[Hs Ht]|(d & r & Hs & Hd & Ht)]].
    + subst t. cbn [filter]. rewrite Hb. cbn [join]. symmetry. exact Hs.
    + subst t. cbn [filter]. rewrite Hb, fields_flag.
      assert (d = " "%char) as ->.
      { destruct Hnf as (H1 & _). apply H1; [|exact Hd].
        rewrite Hs. apply in_or_app. right. left. reflexivity. }
      rewrite Hs in Hnf.
      destruct (normal_form_after_space _ _ Hnf) as [Hr Hnfr].
      assert (length r <= n) as Hlen.
      { apply (f_equal (@length ascii)) in Hs.
        rewrite length_app in Hs. simpl in Hs, Hn. lia. }
      specialize (IH r Hlen Hnfr).
      unfold normalize_whitespace, str_split, re_split in IH.
      destruct (filter nonempty (split_runs isspace false r))
        as [|x xs] eqn:EF.
      * cbn [join] in IH. exfalso. apply Hr. symmetry. exact IH.
      * change (join (lit " ") (h :: x :: xs))
          with (h ++ " "%char :: join (lit " ") (x :: xs)).
        rewrite IH. symmetry. exact Hs.
Qed.

(** X1: the result of [normalize_whitespace] is in normal form (its
    only whitespace is the space, and no space stands first, last or
    next to another), and the strings it leaves unchanged are exactly
    the strings in normal form. *)
Theorem normalize_whitespace_normal_form (s : str) :
  normal_form (normalize_whitespace s)
  /\ (normalize_whitespace s = s <-> normal_form s).
Proof.
  assert (normal_form (normalize_whitespace s)) as H
    by (apply join_words_normal_form, str_split_words).
  split; [exact H|]. split.
  - intros E. rewrite <- E. exact H.
  - apply (normal_form_fixed_bounded (length s)). reflexivity.
Qed.

(** X2: [normalize_whitespace] changes whitespace only: the characters
    that are no whitespace are the same, in the same order, before and
    after. *)
Theorem normalize_whitespace_keeps_text (s : str) :
  visible (normalize_whitespace s) = visible s.
Proof.
  unfold visible, normalize_whitespace, str_split, re_split.
  change (lit " ") with [" "%char].
  rewrite (filter_join isspace " "%char)
    by (reflexivity || apply fields_sep_free).
  rewrite concat_filter_nonempty. apply concat_split_runs.
Qed.

(** X3: [normalize_whitespace] never makes a string longer, and it
    gives the empty string exactly for a string of whitespace only. *)
Theorem normalize_whitespace_shrinks (s : str) :
  length (normalize_whitespace s) <= length s
  /\ (normalize_whitespace s = [] <-> forall c, In c s -> isspace c = true).
Proof.
  split.
  - unfold normalize_whitespace, str_split, re_split.
    change (lit " ") with [" "%char].
    apply (tokens_of_join_length isspace). apply fields_tokens.
  - split.
    + intros E c Hc. destruct (isspace c) eqn:Hsp; [reflexivity|].
      pose proof (normalize_whitespace_keeps c s Hc Hsp) as H.
      rewrite E in H. destruct H.
    + intros H.
      destruct (normalize_whitespace s) as [|a t] eqn:E; [reflexivity|].
      exfalso.
      assert (In a (visible (normalize_whitespace s))) as Ha.
      { apply visible_In. rewrite E. split; [left; reflexivity|].
        destruct (join_words_head (str_split s) (str_split_words s))
          as (a' & t' & Hj & Ha').
        - intros En. unfold normalize_whitespace in E. rewrite En in E.
          discriminate.
        - unfold normalize_whitespace in E. rewrite Hj in E.
          injection E as -> _. exact Ha'. }
      rewrite visible_normalize_whitespace in Ha.
      apply visible_In in Ha. destruct Ha as [Hin Hsp].
      rewrite (H a Hin) in Hsp. discriminate.
Qed.

(** ** Occurrences and words *)

Lemma substring_app_r kw a b : substring kw b -> substring kw (a ++ b).
Proof.
  intros (pre & post & ->). exists (a ++ pre), post.
  rewrite <- app_assoc. reflexivity.
Qed.

Lemma substring_app_l kw a b : substring kw a -> substring kw (a ++ b).
Proof.
  intros (pre & post & ->). exists pre, (post ++ b).
  rewrite <- !app_assoc. reflexivity.
Qed.

Lemma substring_prefix a b s : substring (a ++ b) s -> substring a s.
Proof.
  intros (pre & post & ->). exists pre, (b ++ post).
  rewrite <- app_assoc. reflexivity.
Qed.

Lemma substring_join kw d ws w :
  In w ws -> substring kw w -> substring kw (join d ws).
Proof.
  induction ws as [|w0 ws IH]; intros Hin Hsub; [destruct Hin|].
  destruct ws as [|w1 ws'].
  - destruct Hin as [->|[]]. exact Hsub.
  - change (join d (w0 :: w1 :: ws')) with (w0 ++ d ++ join d (w1 :: ws')).
    destruct Hin as [->|Hin].
    + apply substring_app_l. exact Hsub.
    + apply substring_app_r, substring_app_r. apply IH; assumption.
Qed.

Section Occurrences.
Variable sep : ascii -> bool.

(** A word that occurs in a string occurs in one of its tokens. *)
Lemma substring_in_tokens kw s ts :
  word sep kw -> tokens_of sep s ts -> substring kw s ->
  exists w, In w ts /\ substring kw w.
Proof.
  intros [Hne Hfree] Ht.
  induction Ht as [|c s ts Hc _ IH|w s ts Hw Hs _ IH];
    intros (pre & post & E).
  - exfalso. symmetry in E. apply app_eq_nil in E. destruct E as [_ E].
    apply app_eq_nil in E. destruct E as [E _]. contradiction.
  - destruct pre as [|x pre].
    + exfalso. destruct kw as [|a kw]; [contradiction|].
      injection E as -> _. inversion Hfree; congruence.
    + injection E as _ E. apply IH. exists pre, post. exact E.
  - apply app_eq_app in E. destruct E as (l & [[Ew Ek]|[Ep Es]]).
    + apply app_eq_app in Ek. destruct Ek as (m & [[Ek Es]|[El Ep]]).
      * destruct m as [|a m].
        -- rewrite app_nil_r in Ek. subst l.
           exists w. split; [left; reflexivity|].
           exists pre, []. rewrite app_nil_r. exact Ew.
        -- exfalso. destruct Hs as [->|(c & s' & -> & Hc)];
             [discriminate|].
           injection Es as -> _.
           unfold sep_free in Hfree. rewrite Forall_forall in Hfree.
           assert (sep a = false) as Ha.
           { apply Hfree. rewrite Ek. apply in_or_app. right.
             left. reflexivity. }
           congruence.
      * exists w. split; [left; reflexivity|].
        exists pre, m. rewrite Ew, El. reflexivity.
    + destruct IH as (w' & Hin & Hsub);
        [exists l, post; exact Es|].
      exists w'. split; [right; exact Hin | exact Hsub].
Qed.

Lemma split_runs_flag c s b :
  sep c = false ->
  split_runs sep b (c :: s) = split_runs sep false (c :: s).
Proof. intros H. cbn [split_runs]. rewrite H. reflexivity. Qed.

(** Splitting what was joined by one separator gives the words back,
    empty pieces and all. *)
Lemma split_runs_join d ws :
  sep d = true -> Forall (word sep) ws -> ws <> [] ->
  split_runs sep false (join [d] ws) = ws.
Proof.
  intros Hd. induction 1 as [|w ws [Hne Hw] Hws IH]; intros Hnn;
    [exfalso; apply Hnn; reflexivity|].
  destruct ws as [|w' ws'].
  - cbn [join]. rewrite <- (app_nil_r w) at 1.
    rewrite fields_word_prefix by exact Hw.
    cbn [split_runs]. rewrite app_nil_r. reflexivity.
  - change (join [d] (w :: w' :: ws'))
      with (w ++ d :: join [d] (w' :: ws')).
    rewrite fields_word_prefix by exact Hw.
    cbn [split_runs]. rewrite Hd, app_nil_r. f_equal.
    specialize (IH ltac:(discriminate)).
    inversion Hws as [|? ? [Hne' Hw'] _]; subst.
    destruct w' as [|a w'']; [contradiction|].
    inversion Hw'; subst.
    set (J := join _ _).
    assert (exists t, J = a :: t) as [t Et]
      by (subst J; destruct ws'; cbn [join app]; eexists; reflexivity).
    transitivity (split_runs sep false J); [|exact IH].
    rewrite Et. apply split_runs_flag. assumption.
Qed.
End Occurrences.

(** ** The classifier on the text as typed *)

Lemma normalize_whitespace_twice s :
  normalize_whitespace (normalize_whitespace s) = normalize_whitespace s.
Proof.
  unfold normalize_whitespace at 1. rewrite str_split_normalized.
  reflexivity.
Qed.

Lemma looks_like_doctor_true_inv name :
  looks_like_doctor name = true ->
  existsb (str_eqb (lower (normalize_whitespace name))) PLACEHOLDERS = false
  /\ existsb (fun keyword =>
                contains keyword (lower (normalize_whitespace name)))
             BLOCK_KEYWORDS = false
  /\ existsb isdigit (normalize_whitespace name) = false
  /\ 2 <= length (name_tokens (normalize_whitespace name)).
Proof.
  destruct name as [|c s]; [discriminate|].
  rewrite looks_like_doctor_cons. cbv zeta.
  destruct (existsb (str_eqb _) PLACEHOLDERS); [discriminate|].
  destruct (existsb (fun keyword => contains keyword _) BLOCK_KEYWORDS);
    [discriminate|].
  destruct (existsb isdigit _); [discriminate|].
  intros H. apply Nat.leb_le in H. repeat split. exact H.
Qed.

Lemma looks_like_doctor_normalized s :
  looks_like_doctor (normalize_whitespace s) = looks_like_doctor s.
Proof.
  destruct s as [|c s']; [reflexivity|].
  destruct (normalize_whitespace (c :: s')) as [|a t] eqn:En.
  - rewrite looks_like_doctor_cons. cbv zeta. rewrite En. reflexivity.
  - rewrite !looks_like_doctor_cons. cbv zeta.
    rewrite <- En, normalize_whitespace_twice. reflexivity.
Qed.

Lemma isdigit_not_space c : isdigit c = true -> isspace c = false.
Proof.
  destruct c as [[|] [|] [|] [|] [|] [|] [|] [|]];
    intros H; try reflexivity; discriminate H.
Qed.

Lemma block_keywords_are_words : Forall (word isspace) BLOCK_KEYWORDS.
Proof.
  apply Forall_forall. intros kw Hin.
  repeat (destruct Hin as [<-|Hin];
          [split; [discriminate | repeat constructor]|]).
  destruct Hin.
Qed.

(** A word that occurs in a string occurs in its normalization. *)
Lemma substring_normalize_whitespace kw s :
  word isspace kw -> substring kw s ->
  substring kw (normalize_whitespace s).
Proof.
  intros Hkw Hsub.
  destruct (substring_in_tokens isspace kw s (str_split s) Hkw
              (fields_tokens isspace s) Hsub) as (w & Hin & Hw).
  unfold normalize_whitespace. eapply substring_join; eassumption.
Qed.

(** X4: the classifier does not see the whitespace layout: a name and
    its normalization get the same verdict. *)
Theorem looks_like_doctor_ignores_layout (s : str) :
  looks_like_doctor (normalize_whitespace s) = looks_like_doctor s.
Proof.
  destruct s as [|c s']; [reflexivity|].
  destruct (normalize_whitespace (c :: s')) as [|a t] eqn:En.
  - rewrite looks_like_doctor_cons. cbv zeta. rewrite En. reflexivity.
  - rewrite !looks_like_doctor_cons. cbv zeta.
    rewrite <- En, normalize_whitespace_twice. reflexivity.
Qed.

(** X5: a name as typed, before any normalization, that holds a digit
    or, in any letter case, a block keyword is rejected. *)
Theorem looks_like_doctor_rejects_raw (name : str) :
  (exists c, In c name /\ isdigit c = true)
  \/ (exists kw, In kw BLOCK_KEYWORDS /\ substring kw (lower name)) ->
  looks_like_doctor name = false.
Proof.
  intros H. destruct (looks_like_doctor name) eqn:E; [|reflexivity].
  exfalso. apply looks_like_doctor_true_inv in E.
  destruct E as (_ & Hk & Hd & _).
  destruct H as [(c & Hin & Hc)|(kw & Hin & Hsub)].
  - assert (existsb isdigit (normalize_whitespace name) = true) as Hd'.
    { apply existsb_isdigit. exists c. split; [|exact Hc].
      apply normalize_whitespace_keeps; [exact Hin|].
      apply isdigit_not_space, Hc. }
    congruence.
  - assert (existsb (fun keyword =>
                       contains keyword (lower (normalize_whitespace name)))
                    BLOCK_KEYWORDS = true) as Hk'.
    { apply existsb_contains. exists kw. split; [exact Hin|].
      rewrite <- normalize_whitespace_lower.
      apply substring_normalize_whitespace; [|exact Hsub].
      pose proof block_keywords_are_words as Hw.
      rewrite Forall_forall in Hw. apply Hw, Hin. }
    congruence.
Qed.

Lemma no_space_normal_form s :
  existsb isspace s = false -> normal_form s.
Proof.
  intros H.
  assert (forall c, In c s -> isspace c = false) as Hs.
  { intros c Hc. destruct (isspace c) eqn:E; [|reflexivity].
    assert (existsb isspace s = true) as H'
      by (apply existsb_exists; exists c; auto).
    congruence. }
  assert (~ In " "%char s) as Hno
    by (intros Hin; specialize (Hs _ Hin); discriminate).
  split; [|split; [|split]].
  - intros c Hc Hsp. rewrite (Hs c Hc) in Hsp. discriminate.
  - intros t ->. apply Hno. left. reflexivity.
  - intros t ->. apply Hno. apply in_or_app. right. left. reflexivity.
  - intros pre post ->. apply Hno. apply in_or_app. right. left.
    reflexivity.
Qed.

(** Two tokens take three characters, one of them a separator. *)
Lemma two_tokens_separator sep s ts a b r :
  tokens_of sep s ts -> ts = a :: b :: r ->
  3 <= length s /\ exists c, In c s /\ sep c = true.
Proof.
  intros Ht. revert a b r.
  induction Ht as [|c s ts Hc Ht IH|w s ts Hw Hs Ht IH];
    intros a b r E; [discriminate| |].
  - destruct (IH a b r E) as [Hl (c' & Hin & Hc')].
    split; [simpl; lia|]. exists c'. split; [right; exact Hin | exact Hc'].
  - injection E as -> ->.
    apply tokens_of_fields in Ht.
    destruct Hs as [->|(c & s' & -> & Hc)]; [simpl in Ht; discriminate|].
    split.
    + destruct Hw as [Hne _]. destruct a as [|x a]; [contradiction|].
      destruct s' as [|y s'].
      * rewrite fields_sep_cons in Ht by exact Hc. simpl in Ht.
        discriminate.
      * rewrite length_app. simpl. lia.
    + exists c. split; [apply in_or_app; right; left; reflexivity|].
      exact Hc.
Qed.

(** X6: an accepted name has at least three characters, and one of them
    is a hyphen, a comma or whitespace. *)
Theorem accepted_name_has_separator (name : str) :
  looks_like_doctor name = true ->
  3 <= length name /\ exists c, In c name /\ token_sep c = true.
Proof.
  intros H. apply looks_like_doctor_true_inv in H.
  destruct H as (_ & _ & _ & Hlen).
  destruct (name_tokens (normalize_whitespace name))
    as [|w1 [|w2 ts]] eqn:En; [simpl in Hlen; lia | simpl in Hlen; lia |].
  destruct (two_tokens_separator token_sep (normalize_whitespace name)
              _ w1 w2 ts (fields_tokens token_sep _) En)
    as [Hl (c & Hin & Hc)].
  split.
  - pose proof (tokens_of_join_length isspace " "%char name (str_split name)
                  (fields_tokens isspace name)) as [Hle _].
    change (join [" "%char] (str_split name))
      with (normalize_whitespace name) in Hle.
    lia.
  - destruct (existsb isspace name) eqn:Ex.
    + apply existsb_exists in Ex. destruct Ex as (c' & Hc1 & Hc2).
      exists c'. split; [exact Hc1|].
      unfold token_sep. rewrite Hc2. apply orb_true_r.
    + apply no_space_normal_form in Ex.
      apply (normal_form_fixed_bounded (length name)) in Ex;
        [|reflexivity].
      rewrite Ex in Hin. exists c. split; assumption.
Qed.

(** ** The fragments of [split_multi_value] *)

Lemma strip_chars p s c : In c (strip p s) -> In c s.
Proof.
  unfold strip. intros H.
  destruct (rstrip_prefix p (lstrip p s)) as [junk Hj].
  destruct (lstrip_suffix p s) as [junk' Hs].
  rewrite Hs, Hj. apply in_or_app. right. apply in_or_app. left. exact H.
Qed.

Lemma semi_or_newline_false c :
  semi_or_newline c = false -> c <> ";"%char /\ c <> "010"%char.
Proof. intros H. split; intros ->; discriminate. Qed.

Lemma lstrip_id p c s : p c = false -> lstrip p (c :: s) = c :: s.
Proof. intros H. cbn [lstrip]. rewrite H. reflexivity. Qed.

(** A string whose first and last characters are not stripped is left
    as it is. *)
Lemma strip_id p s :
  (forall c t, s = c :: t -> p c = false) ->
  (forall c t, s = t ++ [c] -> p c = false) ->
  strip p s = s.
Proof.
  intros Hfirst Hlast. unfold strip, rstrip.
  destruct s as [|c s]; [reflexivity|].
  rewrite lstrip_id by (eapply Hfirst; reflexivity).
  destruct (@exists_last _ (c :: s) ltac:(discriminate)) as (t & y & E).
  rewrite E, rev_app_distr. cbn [rev app].
  rewrite lstrip_id by (eapply Hlast; exact E).
  change (y :: rev t) with ([y] ++ rev t).
  rewrite rev_app_distr, rev_involutive. reflexivity.
Qed.

Lemma clean_value_strip x : clean_value x -> strip space_or_semi x = x.
Proof.
  intros (_ & (_ & H2 & H3 & _) & Hfree).
  unfold sep_free in Hfree. rewrite Forall_forall in Hfree.
  assert (forall c, In c x -> c <> " "%char -> space_or_semi c = false)
    as Hp.
  { intros c Hc Hsp. unfold space_or_semi.
    destruct (Ascii.eqb c " ") eqn:E1;
      [apply Ascii.eqb_eq in E1; contradiction|].
    destruct (Ascii.eqb c ";") eqn:E2; [|reflexivity].
    apply Ascii.eqb_eq in E2. subst c.
    specialize (Hfree _ Hc). discriminate. }
  apply strip_id.
  - intros c t ->. apply Hp; [left; reflexivity|].
    intros ->. exact (H2 t eq_refl).
  - intros c t ->. apply Hp; [apply in_or_app; right; left; reflexivity|].
    intros ->. exact (H3 t eq_refl).
Qed.

Lemma filter_all {A} (f : A -> bool) l :
  (forall x, In x l -> f x = true) -> filter f l = l.
Proof.
  induction l as [|x l IH]; intros H; [reflexivity|].
  simpl. rewrite (H x (or_introl eq_refl)).
  rewrite IH; [reflexivity|]. intros y Hy. apply H. right. exact Hy.
Qed.

Lemma map_fixed {A} (f : A -> A) l :
  (forall x, In x l -> f x = x) -> map f l = l.
Proof.
  induction l as [|x l IH]; intros H; [reflexivity|].
  simpl. rewrite (H x (or_introl eq_refl)).
  rewrite IH; [reflexivity|]. intros y Hy. apply H. right. exact Hy.
Qed.

Lemma split_multi_value_element value x :
  In x (split_multi_value value) ->
  normalize_whitespace x = x
  /\ forall c, In c x ->
       semi_or_newline c = false /\ (c = " "%char \/ In c value).
Proof.
  unfold split_multi_value.
  destruct value as [|a v] eqn:Ev; [intros []|]. rewrite <- Ev.
  intros H. apply in_map_iff in H. destruct H as (part & <- & Hpart).
  apply filter_In in Hpart. destruct Hpart as [Hin _].
  split; [apply normalize_whitespace_twice|].
  intros c Hc. apply join_chars in Hc.
  destruct Hc as [[<-|[]]|(w & Hw & Hc)];
    [split; [reflexivity | left; reflexivity]|].
  assert (In c (strip space_or_semi part)) as Hs.
  { unfold str_split, re_split in Hw. apply filter_In in Hw.
    destruct Hw as [Hw _]. eapply split_runs_chars; eassumption. }
  apply strip_chars in Hs. split.
  - pose proof (split_runs_sep_free semi_or_newline false value) as Hf.
    rewrite Forall_forall in Hf. specialize (Hf part Hin).
    unfold sep_free in Hf. rewrite Forall_forall in Hf. apply Hf, Hs.
  - right. eapply split_runs_chars; eassumption.
Qed.

(** X7: every fragment that [split_multi_value] returns is whitespace
    normalized and holds no semicolon and no newline, and its characters
    are characters of the input or spaces. *)
Theorem split_multi_value_fragments (value x : str) :
  In x (split_multi_value value) ->
  normalize_whitespace x = x
  /\ forall c, In c x ->
       c <> ";"%char /\ c <> "010"%char /\ (c = " "%char \/ In c value).
Proof.
  intros H. destruct (split_multi_value_element value x H) as [Hn Hc].
  split; [exact Hn|]. intros c Hin.
  destruct (Hc c Hin) as [Hs Hv].
  destruct (semi_or_newline_false c Hs) as [H1 H2]. auto.
Qed.

(** X8: clean values joined by a semicolon or by a newline are split
    back into the same values, in the same order. *)
Theorem split_multi_value_join (d : ascii) (xs : list str) :
  semi_or_newline d = true ->
  Forall clean_value xs ->
  split_multi_value (join [d] xs) = xs.
Proof.
  intros Hd Hxs.
  destruct xs as [|x xs']; [reflexivity|]. set (xs := x :: xs') in *.
  assert (Forall (word semi_or_newline) xs) as Hwords.
  { eapply Forall_impl; [|exact Hxs]. intros y (Hne & _ & Hfree).
    split; assumption. }
  unfold split_multi_value.
  destruct (join [d] xs) as [|a v] eqn:Ej.
  - exfalso. inversion Hxs as [|? ? (Hne & _) _]; subst.
    destruct x as [|c x]; [contradiction|].
    subst xs. destruct xs'; discriminate.
  - rewrite <- Ej. unfold re_split.
    rewrite split_runs_join by (assumption || discriminate).
    rewrite Forall_forall in Hxs.
    rewrite filter_all.
    + apply map_fixed. intros y Hy.
      rewrite clean_value_strip by (apply Hxs, Hy).
      destruct (Hxs y Hy) as (_ & Hnf & _).
      apply (normal_form_fixed_bounded (length y)); [reflexivity|exact Hnf].
    + intros y Hy. rewrite clean_value_strip by (apply Hxs, Hy).
      destruct (Hxs y Hy) as (Hne & _). destruct y; [contradiction|].
      reflexivity.
Qed.

(** ** The specialty, further *)

Lemma first_specialty_range table combined :
  In (first_specialty table combined)
     (map snd table ++ [lit "General Practice"]).
Proof.
  induction table as [|[kw label] table IH]; simpl;
    [left; reflexivity|].
  destruct (contains kw combined); [left; reflexivity | right; exact IH].
Qed.

(** X9: [infer_specialty] answers one of the labels of
    [SPECIALTY_KEYWORDS] or "General Practice", whatever the fields. *)
Theorem infer_specialty_label (fields : list str) :
  In (infer_specialty fields) SPECIALTY_LABELS.
Proof. unfold infer_specialty. cbv zeta. apply first_specialty_range. Qed.

Lemma field_in_combined kw f fields :
  kw <> [] -> In f fields -> substring kw (lower f) ->
  substring kw (combined_text fields).
Proof.
  intros Hne Hin Hsub. unfold combined_text.
  rewrite <- join_lower. change (lower (lit " ")) with (lit " ").
  apply (substring_join kw (lit " ") _ (lower f)); [|exact Hsub].
  apply in_map. apply filter_In. split; [exact Hin|].
  destruct f as [|c f]; [|reflexivity].
  exfalso. destruct Hsub as (pre & post & E).
  destruct pre; [|discriminate]. destruct kw; [contradiction|discriminate].
Qed.

(** X10: when one of the fields holds "cardio", in any letter case, the
    answer is "Cardiology", whatever else the fields hold. *)
Theorem infer_specialty_cardio (fields : list str) (f : str) :
  In f fields ->
  substring (lit "cardio") (lower f) ->
  infer_specialty fields = lit "Cardiology".
Proof.
  intros Hin Hsub. rewrite infer_specialty_combined.
  apply (first_specialty_first_match _ [] (lit "cardio") (lit "Cardiology")
           (tl SPECIALTY_KEYWORDS));
    [reflexivity | | intros ? ? []].
  eapply field_in_combined; [discriminate | exact Hin | exact Hsub].
Qed.

Lemma first_specialty_shadowed p1 k2 l2 k3 l3 rest combined :
  (contains k3 combined = true -> contains k2 combined = true) ->
  first_specialty (p1 :: (k2, l2) :: (k3, l3) :: rest) combined
  = first_specialty (p1 :: (k2, l2) :: rest) combined.
Proof.
  intros H. destruct p1 as [k1 l1]. cbn [first_specialty].
  destruct (contains k1 combined); [reflexivity|].
  destruct (contains k2 combined) eqn:E2; [reflexivity|].
  destruct (contains k3 combined); [|reflexivity].
  specialize (H eq_refl). discriminate.
Qed.

(** X11: the pair ("dermato", "Dermatology") never decides: a text that
    holds "dermato" holds "derma", which comes first, so the answer is
    the same with the pair taken out of the table. *)
Theorem infer_specialty_dermato_unused (fields : list str) :
  infer_specialty fields
  = first_specialty SPECIALTY_KEYWORDS_without_dermato
                    (combined_text fields).
Proof.
  rewrite infer_specialty_combined.
  apply (first_specialty_shadowed
           (lit "cardio", lit "Cardiology")
           (lit "derma") (lit "Dermatology")
           (lit "dermato") (lit "Dermatology")
           (skipn 3 SPECIALTY_KEYWORDS)).
  intros H. apply contains_spec in H. apply contains_spec.
  change (lit "dermato") with (lit "derma" ++ lit "to") in H.
  eapply substring_prefix. exact H.
Qed.

(** ** The keys of the dict during the scan *)

Lemma dict_get_None_keys k d : dict_get k d = None <-> ~ In k (dict_keys d).
Proof.
  induction d as [|[k0 v0] d IH]; simpl.
  - split; [intros _ [] | reflexivity].
  - destruct (str_eqb k k0) eqn:E.
    + apply str_eqb_eq in E. subst k0.
      split; [discriminate | intros H; exfalso; apply H; left; reflexivity].
    + rewrite IH. split.
      * intros H [H'|H']; [|exact (H H')].
        subst k0. rewrite str_eqb_refl in E. discriminate.
      * intros H H'. apply H. right. exact H'.
Qed.

Lemma upsert_keys entries fresh :
  dict_keys (upsert entries fresh)
  = match dict_get (e_id fresh) entries with
    | Some _ => dict_keys entries
    | None => dict_keys entries ++ [e_id fresh]
    end.
Proof.
  unfold upsert.
  destruct (dict_get (e_id fresh) entries) as [existing|] eqn:E.
  - eapply dict_keys_set_present. exact E.
  - rewrite dict_set_absent by exact E.
    unfold dict_keys. rewrite map_app. reflexivity.
Qed.

Lemma dict_set_twice k v d : dict_set k v (dict_set k v d) = dict_set k v d.
Proof.
  induction d as [|[k0 v0] d IH]; simpl.
  - rewrite str_eqb_refl. reflexivity.
  - destruct (str_eqb k k0) eqn:E; simpl.
    + rewrite str_eqb_refl. reflexivity.
    + rewrite E, IH. reflexivity.
Qed.

Lemma well_keyed_ids d :
  well_keyed d -> map e_id (dict_values d) = dict_keys d.
Proof.
  unfold dict_values, dict_keys. induction d as [|[k v] d IH]; intros H;
    [reflexivity|].
  simpl. rewrite (H k v (or_introl eq_refl)).
  rewrite IH; [reflexivity|]. intros k' e' Hin. apply H. right. exact Hin.
Qed.

Lemma upsert_keys_nodup entries fresh :
  NoDup (dict_keys entries) -> NoDup (dict_keys (upsert entries fresh)).
Proof.
  intros H. rewrite upsert_keys.
  destruct (dict_get (e_id fresh) entries) eqn:E; [exact H|].
  apply dict_get_None_keys in E.
  apply NoDup_app; [exact H | repeat constructor; intros [] |].
  intros x Hx [<-|[]]. exact (E Hx).
Qed.

Lemma first_seen_ext s1 s2 l :
  (forall x, In x s1 <-> In x s2) -> first_seen s1 l = first_seen s2 l.
Proof.
  revert s1 s2; induction l as [|x l IH]; intros s1 s2 H; [reflexivity|].
  cbn [first_seen].
  destruct (in_dec str_eq_dec x s1) as [H1|H1];
    destruct (in_dec str_eq_dec x s2) as [H2|H2].
  - apply IH, H.
  - exfalso. apply H2, H, H1.
  - exfalso. apply H1, H, H2.
  - f_equal. apply IH. intros y. simpl. rewrite H. reflexivity.
Qed.

Lemma first_seen_length seen l : length (first_seen seen l) <= length l.
Proof.
  revert seen; induction l as [|x l IH]; intros seen; [reflexivity|].
  cbn [first_seen]. destruct (in_dec str_eq_dec x seen); simpl.
  - specialize (IH seen). lia.
  - specialize (IH (x :: seen)). lia.
Qed.

Lemma accepted_ids_length cols rows :
  length (accepted_ids cols rows) <= length rows.
Proof.
  unfold accepted_ids. induction rows as [|r rows IH]; [reflexivity|].
  simpl. rewrite length_app. destruct (candidate cols r); simpl; lia.
Qed.

Section ScanKeys.
Variable cols : Columns.

Lemma scan_from_keys_nodup rows entries :
  NoDup (dict_keys entries) ->
  NoDup (dict_keys (fold_left (scan_row cols) rows entries)).
Proof.
  revert entries; induction rows as [|r rows IH]; intros entries H;
    [exact H|].
  simpl. apply IH. unfold scan_row.
  destruct (candidate cols r); [apply upsert_keys_nodup|]; exact H.
Qed.

(** The keys after the scan: those before it, then the new ids in the
    order in which the rows bring them. *)
Lemma scan_from_keys rows entries :
  dict_keys (fold_left (scan_row cols) rows entries)
  = dict_keys entries
    ++ first_seen (dict_keys entries) (accepted_ids cols rows).
Proof.
  revert entries; induction rows as [|r rows IH]; intros entries.
  - simpl. rewrite app_nil_r. reflexivity.
  - cbn [fold_left]. rewrite IH. unfold accepted_ids. cbn [flat_map].
    fold (accepted_ids cols rows). unfold scan_row.
    destruct (candidate cols r) as [fresh|]; [|reflexivity].
    rewrite upsert_keys. cbn [app first_seen].
    destruct (dict_get (e_id fresh) entries) eqn:E;
      destruct (in_dec str_eq_dec (e_id fresh) (dict_keys entries))
        as [Hin|Hin].
    + reflexivity.
    + exfalso. assert (dict_get (e_id fresh) entries = None) as E'
        by (apply dict_get_None_keys; exact Hin).
      congruence.
    + exfalso. apply dict_get_None_keys in E. exact (E Hin).
    + rewrite <- app_assoc. cbn [app]. do 2 f_equal.
      apply first_seen_ext. intros x. rewrite in_app_iff. simpl. tauto.
Qed.

Lemma scan_row_absent entries row k :
  dict_get k entries = None ->
  (forall fresh, candidate cols row = Some fresh -> e_id fresh <> k) ->
  dict_get k (scan_row cols entries row) = None.
Proof.
  intros H Hne. unfold scan_row.
  destruct (candidate cols row) as [fresh|]; [|exact H].
  rewrite upsert_get_other; [exact H|].
  intros E. apply (Hne fresh eq_refl). symmetry. exact E.
Qed.

Lemma scan_from_absent rows entries k :
  dict_get k entries = None ->
  (forall row fresh, In row rows -> candidate cols row = Some fresh ->
                     e_id fresh <> k) ->
  dict_get k (fold_left (scan_row cols) rows entries) = None.
Proof.
  revert entries; induction rows as [|r rows IH]; intros entries H Hne;
    [exact H|].
  simpl. apply IH.
  - apply scan_row_absent; [exact H|].
    intros fresh. apply Hne. left. reflexivity.
  - intros row fresh Hin. apply Hne. right. exact Hin.
Qed.

(** Once an entry is stored, the scan keeps its id, name, specialty and
    source file. *)
Lemma scan_row_singular entries row k e :
  dict_get k entries = Some e ->
  exists e', dict_get k (scan_row cols entries row) = Some e'
             /\ singular_fields e' = singular_fields e.
Proof.
  intros H. unfold scan_row.
  destruct (candidate cols row) as [fresh|]; [|exists e; auto].
  destruct (str_eq_dec k (e_id fresh)) as [->|Hne].
  - rewrite upsert_get, H. eexists. split; reflexivity.
  - rewrite upsert_get_other by exact Hne. exists e. auto.
Qed.

Lemma scan_from_singular rows entries k e :
  dict_get k entries = Some e ->
  exists e', dict_get k (fold_left (scan_row cols) rows entries) = Some e'
             /\ singular_fields e' = singular_fields e.
Proof.
  revert entries e; induction rows as [|r rows IH]; intros entries e H.
  - exists e. auto.
  - simpl. destruct (scan_row_singular entries r k e H) as (e1 & H1 & E1).
    destruct (IH _ _ H1) as (e2 & H2 & E2).
    exists e2. split; [exact H2 | congruence].
Qed.

Lemma scan_from_size rows entries :
  length (fold_left (scan_row cols) rows entries)
  <= length entries + length rows.
Proof.
  pose proof (f_equal (@length str) (scan_from_keys rows entries)) as H.
  unfold dict_keys in H. rewrite length_app, !length_map in H.
  pose proof (first_seen_length (map fst entries)
                                (accepted_ids cols rows)).
  pose proof (accepted_ids_length cols rows). lia.
Qed.
End ScanKeys.

Lemma merge_absorbs existing fresh :
  merge (merge existing fresh) fresh = merge existing fresh.
Proof.
  unfold merge; simpl.
  f_equal; apply sorted_union_ext; intros x; rewrite sorted_union_In; tauto.
Qed.

(** X12: no two entries of the output have the same id. *)
Theorem output_ids_distinct (cols : Columns) (rows : list Row) :
  NoDup (map e_id (dict_values (scan cols rows))).
Proof.
  rewrite well_keyed_ids by apply scan_well_keyed.
  apply scan_from_keys_nodup. constructor.
Qed.

(** X13: the output lists the entries in the order in which their ids
    first come up among the accepted rows, and it never has more
    entries than the sheet has data rows. *)
Theorem output_in_first_seen_order (cols : Columns) (rows : list Row) :
  map e_id (dict_values (scan cols rows))
  = first_seen [] (accepted_ids cols rows)
  /\ length (dict_values (scan cols rows)) <= length rows.
Proof.
  split.
  - rewrite well_keyed_ids by apply scan_well_keyed.
    apply (scan_from_keys cols rows []).
  - unfold dict_values. rewrite length_map.
    apply (scan_from_size cols rows []).
Qed.

(** X14: first seen wins: the entry under an id has the name, the
    specialty and the source file of the first accepted row with that
    id, whatever the later rows with the id hold. *)
Theorem first_seen_wins
    (cols : Columns) (pre post : list Row) (row : Row) (fresh : Entry) :
  candidate cols row = Some fresh ->
  (forall r f, In r pre -> candidate cols r = Some f ->
               e_id f <> e_id fresh) ->
  exists e,
    dict_get (e_id fresh) (scan cols (pre ++ row :: post)) = Some e
    /\ e_name e = e_name fresh
    /\ e_specialty e = e_specialty fresh
    /\ e_sourceFile e = e_sourceFile fresh.
Proof.
  intros Hc Hpre. unfold scan. rewrite fold_left_app. cbn [fold_left].
  set (d := fold_left (scan_row cols) pre []).
  assert (dict_get (e_id fresh) d = None) as Hd
    by (apply scan_from_absent; [reflexivity | exact Hpre]).
  assert (dict_get (e_id fresh) (scan_row cols d row) = Some fresh) as Hrow
    by (unfold scan_row; rewrite Hc, upsert_get, Hd; reflexivity).
  destruct (scan_from_singular cols post _ _ _ Hrow) as (e & He & Es).
  exists e. split; [exact He|].
  unfold singular_fields in Es. injection Es as _ -> -> ->. auto.
Qed.

(** X15: a row that comes a third time changes nothing: after two
    copies of an accepted row the dict is the same with any further
    copy. *)
Theorem third_copy_changes_nothing
    (cols : Columns) (entries : dict) (row : Row) :
  scan_row cols (scan_row cols (scan_row cols entries row) row) row
  = scan_row cols (scan_row cols entries row) row.
Proof.
  unfold scan_row. destruct (candidate cols row) as [fresh|]; [|reflexivity].
  set (d1 := upsert entries fresh).
  assert (exists x, dict_get (e_id fresh) d1 = Some x) as [x Hx]
    by (eexists; apply upsert_get).
  assert (upsert d1 fresh = dict_set (e_id fresh) (merge x fresh) d1) as E2
    by (unfold upsert; rewrite Hx; reflexivity).
  rewrite E2. unfold upsert at 1.
  rewrite dict_get_set_same, merge_absorbs. apply dict_set_twice.
Qed.

(** ** What the entries of the output hold *)

Section MultiValued.
Variable cols : Columns.

(** One of the three multi-valued fields. *)
Variable field : Entry -> list str.
Hypothesis field_merge :
  forall existing fresh,
    field (merge existing fresh)
    = sorted_union (field existing) (field fresh).

Lemma scan_row_field entries row k e' x :
  dict_get k (scan_row cols entries row) = Some e' ->
  (In x (field e') <->
   (exists e0, dict_get k entries = Some e0 /\ In x (field e0))
   \/ (exists fresh, candidate cols row = Some fresh
                     /\ e_id fresh = k /\ In x (field fresh))).
Proof.
  unfold scan_row. destruct (candidate cols row) as [fresh|].
  - destruct (str_eq_dec k (e_id fresh)) as [->|Hne].
    + rewrite upsert_get.
      destruct (dict_get (e_id fresh) entries) as [existing|];
        intros H; injection H as <-.
      * rewrite field_merge, sorted_union_In. split.
        -- intros [H|H]; [left; exists existing; auto|].
           right. exists fresh. auto.
        -- intros [(e0 & E & H)|(f & E & _ & H)].
           ++ injection E as <-. left. exact H.
           ++ injection E as <-. right. exact H.
      * split.
        -- intros H. right. exists fresh. auto.
        -- intros [(e0 & E & _)|(f & E & _ & H)]; [discriminate|].
           injection E as <-. exact H.
    + rewrite upsert_get_other by exact Hne. intros H. split.
      * intros Hx. left. exists e'. auto.
      * intros [(e0 & E & Hx)|(f & E & Ek & _)].
        -- rewrite H in E. injection E as <-. exact Hx.
        -- injection E as <-. exfalso. apply Hne. symmetry. exact Ek.
  - intros H. split.
    + intros Hx. left. exists e'. auto.
    + intros [(e0 & E & Hx)|(f & E & _)]; [|discriminate].
      rewrite H in E. injection E as <-. exact Hx.
Qed.

Lemma scan_from_field rows entries k e' x :
  dict_get k (fold_left (scan_row cols) rows entries) = Some e' ->
  (In x (field e') <->
   (exists e0, dict_get k entries = Some e0 /\ In x (field e0))
   \/ (exists row fresh, In row rows /\ candidate cols row = Some fresh
                         /\ e_id fresh = k /\ In x (field fresh))).
Proof.
  revert entries; induction rows as [|r rows IH]; intros entries H.
  - simpl in H. split.
    + intros Hx. left. exists e'. auto.
    + intros [(e0 & E & Hx)|(row & _ & [] & _)].
      rewrite H in E. injection E as <-. exact Hx.
  - cbn [fold_left] in H. rewrite (IH _ H). split.
    + intros [(e1 & E1 & Hx)|(row & fresh & Hin & Hrest)].
      * apply (scan_row_field entries r k e1 x E1) in Hx.
        destruct Hx as [Hx|(fresh & Hc & Hk & Hx)]; [left; exact Hx|].
        right. exists r, fresh. split; [left; reflexivity | auto].
      * right. exists row, fresh. split; [right; exact Hin | exact Hrest].
    + intros [(e0 & E0 & Hx)|(row & fresh & [<-|Hin] & Hc & Hk & Hx)].
      * destruct (scan_row_singular cols entries r k e0 E0) as (e1 & E1 & _).
        left. exists e1. split; [exact E1|].
        apply (scan_row_field entries r k e1 x E1). left. exists e0. auto.
      * assert (dict_get k (scan_row cols entries r) <> None) as Hsome
          by (rewrite <- Hk; apply scan_row_has_key; exact Hc).
        destruct (dict_get k (scan_row cols entries r)) as [e1|] eqn:E1;
          [|contradiction].
        left. exists e1. split; [reflexivity|].
        apply (scan_row_field entries r k e1 x E1).
        right. exists fresh. auto.
      * right. exists row, fresh. auto.
Qed.

(** A merge leaves the field a sorted set, and it stays one. *)
Lemma scan_row_sorts entries row fresh :
  candidate cols row = Some fresh ->
  dict_get (e_id fresh) entries <> None ->
  exists e, dict_get (e_id fresh) (scan_row cols entries row) = Some e
            /\ sorted_set (field e).
Proof.
  intros Hc Hsome. unfold scan_row. rewrite Hc, upsert_get.
  destruct (dict_get (e_id fresh) entries) as [existing|]; [|contradiction].
  eexists. split; [reflexivity|].
  rewrite field_merge. apply sorted_union_strict.
Qed.

Lemma scan_row_keeps_sorted entries row k e :
  dict_get k entries = Some e -> sorted_set (field e) ->
  exists e', dict_get k (scan_row cols entries row) = Some e'
             /\ sorted_set (field e').
Proof.
  intros H Hs. unfold scan_row.
  destruct (candidate cols row) as [fresh|]; [|exists e; auto].
  destruct (str_eq_dec k (e_id fresh)) as [->|Hne].
  - rewrite upsert_get, H. eexists. split; [reflexivity|].
    rewrite field_merge. apply sorted_union_strict.
  - rewrite upsert_get_other by exact Hne. exists e. auto.
Qed.

Lemma scan_from_keeps_sorted rows entries k e :
  dict_get k entries = Some e -> sorted_set (field e) ->
  exists e', dict_get k (fold_left (scan_row cols) rows entries) = Some e'
             /\ sorted_set (field e').
Proof.
  revert entries e; induction rows as [|r rows IH]; intros entries e H Hs.
  - exists e. auto.
  - simpl.
    destruct (scan_row_keeps_sorted entries r k e H Hs) as (e1 & H1 & Hs1).
    exact (IH _ _ H1 Hs1).
Qed.

Lemma scan_two_rows_sorted pre mid post A B a b :
  candidate cols A = Some a -> candidate cols B = Some b ->
  e_id a = e_id b ->
  exists e,
    dict_get (e_id a) (scan cols (pre ++ A :: mid ++ B :: post)) = Some e
    /\ sorted_set (field e).
Proof.
  intros Ha Hb Hid. unfold scan.
  rewrite fold_left_app. cbn [fold_left].
  rewrite fold_left_app. cbn [fold_left].
  set (d := fold_left (scan_row cols) mid
              (scan_row cols (fold_left (scan_row cols) pre []) A)).
  assert (dict_get (e_id b) d <> None) as Hd.
  { rewrite <- Hid. apply scan_from_keeps_key, scan_row_has_key, Ha. }
  destruct (scan_row_sorts d B b Hb Hd) as (e1 & H1 & Hs1).
  rewrite Hid. exact (scan_from_keeps_sorted post _ _ _ H1 Hs1).
Qed.
End MultiValued.

Lemma contacts_merge existing fresh :
  e_contacts (merge existing fresh)
  = sorted_union (e_contacts existing) (e_contacts fresh).
Proof. reflexivity. Qed.

Lemma credentials_merge existing fresh :
  e_credentials (merge existing fresh)
  = sorted_union (e_credentials existing) (e_credentials fresh).
Proof. reflexivity. Qed.

Lemma registrationNumbers_merge existing fresh :
  e_registrationNumbers (merge existing fresh)
  = sorted_union (e_registrationNumbers existing)
                 (e_registrationNumbers fresh).
Proof. reflexivity. Qed.

(** X16: nothing is lost and nothing is invented: a string is among
    the contacts of the entry under an id exactly when an accepted row
    with that id brings it, and so for the credentials and the
    registration numbers. *)
Theorem entry_collects_its_rows
    (cols : Columns) (rows : list Row) (k : str) (e : Entry) :
  dict_get k (scan cols rows) = Some e ->
  forall x,
    (In x (e_contacts e) <->
     exists row fresh, In row rows /\ candidate cols row = Some fresh
                       /\ e_id fresh = k /\ In x (e_contacts fresh))
    /\ (In x (e_credentials e) <->
        exists row fresh, In row rows /\ candidate cols row = Some fresh
                          /\ e_id fresh = k /\ In x (e_credentials fresh))
    /\ (In x (e_registrationNumbers e) <->
        exists row fresh, In row rows /\ candidate cols row = Some fresh
                          /\ e_id fresh = k
                          /\ In x (e_registrationNumbers fresh)).
Proof.
  intros H x. unfold scan in H.
  pose proof (scan_from_field cols e_contacts contacts_merge
                rows [] k e x H) as H1.
  pose proof (scan_from_field cols e_credentials credentials_merge
                rows [] k e x H) as H2.
  pose proof (scan_from_field cols e_registrationNumbers
                registrationNumbers_merge rows [] k e x H) as H3.
  repeat split; intros Hx;
    first [ apply H1 in Hx | apply H2 in Hx | apply H3 in Hx
          | apply H1 | apply H2 | apply H3 ];
    try (destruct Hx as [(e0 & E & _)|Hx]; [discriminate | exact Hx]);
    right; exact Hx.
Qed.

(** X17: when two accepted rows of the sheet have one id, the entry
    under that id has its contacts, credentials and registration
    numbers sorted and without repetition. *)
Theorem merged_entry_is_sorted
    (cols : Columns) (pre mid post : list Row) (A B : Row) (a b : Entry) :
  candidate cols A = Some a ->
  candidate cols B = Some b ->
  e_id a = e_id b ->
  exists e,
    dict_get (e_id a) (scan cols (pre ++ A :: mid ++ B :: post)) = Some e
    /\ sorted_set (e_contacts e)
    /\ sorted_set (e_credentials e)
    /\ sorted_set (e_registrationNumbers e).
Proof.
  intros Ha Hb Hid.
  destruct (scan_two_rows_sorted cols e_contacts contacts_merge
              pre mid post A B a b Ha Hb Hid) as (e1 & H1 & S1).
  destruct (scan_two_rows_sorted cols e_credentials credentials_merge
              pre mid post A B a b Ha Hb Hid) as (e2 & H2 & S2).
  destruct (scan_two_rows_sorted cols e_registrationNumbers
              registrationNumbers_merge
              pre mid post A B a b Ha Hb Hid) as (e3 & H3 & S3).
  rewrite H1 in H2, H3. injection H2 as <-. injection H3 as <-.
  exists e1. auto.
Qed.


(** ** Every entry of the output comes from accepted rows *)

Section Provenance.
Variable cols : Columns.

Lemma upsert_from_a_row entries row fresh :
  candidate cols row = Some fresh ->
  (forall k e, In (k, e) entries -> from_a_row cols e) ->
  forall k e, In (k, e) (upsert entries fresh) -> from_a_row cols e.
Proof.
  intros Hc Hinv k e Hin. unfold upsert in Hin.
  destruct (dict_get (e_id fresh) entries) as [existing|] eqn:Hget;
    apply dict_set_In in Hin; destruct Hin as [Heq|Hin];
    try (eapply Hinv; exact Hin); injection Heq as -> ->.
  - apply dict_get_In in Hget.
    destruct (Hinv _ _ Hget) as (r & f & Hr & Hs).
    exists r, f. split; [exact Hr | exact Hs].
  - exists row, fresh. split; [exact Hc | reflexivity].
Qed.

Lemma scan_from_from_a_row rows entries :
  (forall k e, In (k, e) entries -> from_a_row cols e) ->
  forall k e, In (k, e) (fold_left (scan_row cols) rows entries) ->
              from_a_row cols e.
Proof.
  revert entries; induction rows as [|r rows IH]; intros entries H;
    [exact H|].
  simpl. apply IH. unfold scan_row.
  destruct (candidate cols r) as [fresh|] eqn:Hc; [|exact H].
  eapply upsert_from_a_row; eassumption.
Qed.

Variable Q : str -> Prop.
Hypothesis fresh_values :
  forall row fresh x,
    candidate cols row = Some fresh -> In x (multi_values fresh) -> Q x.

Lemma merge_values existing fresh x :
  In x (multi_values (merge existing fresh)) ->
  In x (multi_values existing) \/ In x (multi_values fresh).
Proof.
  unfold multi_values, merge; simpl.
  rewrite !in_app_iff, !sorted_union_In. tauto.
Qed.

Lemma scan_from_values rows entries :
  (forall k e, In (k, e) entries -> forall x, In x (multi_values e) -> Q x) ->
  forall k e, In (k, e) (fold_left (scan_row cols) rows entries) ->
              forall x, In x (multi_values e) -> Q x.
Proof.
  revert entries; induction rows as [|r rows IH]; intros entries H;
    [exact H|].
  simpl. apply IH. unfold scan_row.
  destruct (candidate cols r) as [fresh|] eqn:Hc; [|exact H].
  intros k e Hin x Hx. unfold upsert in Hin.
  destruct (dict_get (e_id fresh) entries) as [existing|] eqn:Hget;
    apply dict_set_In in Hin; destruct Hin as [Heq|Hin];
    try (eapply H; eassumption); injection Heq as -> ->.
  - apply merge_values in Hx. destruct Hx as [Hx|Hx].
    + apply dict_get_In in Hget. eapply H; eassumption.
    + eapply fresh_values; eassumption.
  - eapply fresh_values; eassumption.
Qed.
End Provenance.

Lemma in_dict_values d e : In e (dict_values d) -> exists k, In (k, e) d.
Proof.
  unfold dict_values. intros H. apply in_map_iff in H.
  destruct H as ([k e'] & <- & Hin). exists k. exact Hin.
Qed.

Lemma normalized_value_clean row idx x :
  In x (split_multi_value (normalized_or_empty row idx)) -> clean_value x.
Proof.
  unfold normalized_or_empty. destruct (cell_text row idx) as [v|];
    [|intros []].
  intros H. split; [|split].
  - eapply split_multi_value_normalized. exact H.
  - destruct (split_multi_value_element _ _ H) as [<- _].
    apply join_words_normal_form, str_split_words.
  - apply Forall_forall. intros c Hc.
    destruct (split_multi_value_element _ _ H) as [_ Hchars].
    apply Hchars, Hc.
Qed.

Lemma candidate_values_clean cols row fresh x :
  candidate cols row = Some fresh -> In x (multi_values fresh) ->
  clean_value x.
Proof.
  intros Hc Hx.
  destruct (candidate_inv _ _ _ Hc) as (_ & _ & _ & _ & H1 & H2 & H3 & _).
  unfold multi_values in Hx. rewrite H1, H2, H3 in Hx.
  rewrite !in_app_iff in Hx.
  destruct Hx as [Hx|[Hx|Hx]]; eapply normalized_value_clean; exact Hx.
Qed.

(** X18: every entry of the output has a name that the classifier
    accepts and that is whitespace normalized, an id of 12 hexadecimal
    characters, and a specialty that is one of the labels. *)
Theorem output_entries_well_formed
    (cols : Columns) (rows : list Row) (e : Entry) :
  In e (dict_values (scan cols rows)) ->
  looks_like_doctor (e_name e) = true
  /\ normalize_whitespace (e_name e) = e_name e
  /\ length (e_id e) = 12
  /\ Forall is_hex (e_id e)
  /\ In (e_specialty e) SPECIALTY_LABELS.
Proof.
  intros H. apply in_dict_values in H. destruct H as [k Hin].
  assert (from_a_row cols e) as (row & fresh & Hc & Hs).
  { eapply (scan_from_from_a_row cols rows []); [intros ? ? []|].
    exact Hin. }
  unfold singular_fields in Hs. injection Hs as -> -> -> _.
  destruct (candidate_inv _ _ _ Hc)
    as (value & _ & Hlook & Hname & _ & _ & _ & Hid & _ & Hspec).
  rewrite Hname, Hid, Hspec.
  split; [exact Hlook|].
  split; [apply normalize_whitespace_twice|].
  split; [apply entry_id_of_length|].
  split; [apply entry_id_of_is_hex|].
  unfold infer_specialty. cbv zeta. apply first_specialty_range.
Qed.

(** X19: every contact, credential and registration number of the
    output is a non-empty, whitespace-normalized string without
    semicolon and without newline. *)
Theorem output_values_clean
    (cols : Columns) (rows : list Row) (e : Entry) (x : str) :
  In e (dict_values (scan cols rows)) ->
  In x (e_contacts e ++ e_credentials e ++ e_registrationNumbers e) ->
  x <> []
  /\ normalize_whitespace x = x
  /\ forall c, In c x -> c <> ";"%char /\ c <> "010"%char.
Proof.
  intros He Hx. apply in_dict_values in He. destruct He as [k Hin].
  assert (clean_value x) as (Hne & Hnf & Hfree).
  { eapply (scan_from_values cols clean_value
              (candidate_values_clean cols) rows []);
      [intros ? ? [] | exact Hin | exact Hx]. }
  split; [exact Hne|]. split.
  - apply (normal_form_fixed_bounded (length x)); [reflexivity|exact Hnf].
  - intros c Hc. apply semi_or_newline_false.
    unfold sep_free in Hfree. rewrite Forall_forall in Hfree.
    apply Hfree, Hc.
Qed.

(** ** The header row *)

Lemma index_from_inl i x l e :
  index_from i x l = inl e -> e = ValueError /\ ~ In (Some x) l.
Proof.
  revert i; induction l as [|h t IH]; intros i; cbn [index_from].
  - intros H. injection H as <-. split; [reflexivity | intros []].
  - destruct h as [v|].
    + destruct (str_eqb v x) eqn:E; [discriminate|].
      intros H. destruct (IH _ H) as [He Hnot]. split; [exact He|].
      intros [Hv|Hin]; [|exact (Hnot Hin)].
      injection Hv as ->. rewrite str_eqb_refl in E. discriminate.
    + intros H. destruct (IH _ H) as [He Hnot]. split; [exact He|].
      intros [Hv|Hin]; [discriminate | exact (Hnot Hin)].
Qed.

Lemma index_from_inr i x l j :
  index_from i x l = inr j ->
  i <= j
  /\ nth_error l (j - i) = Some (Some x)
  /\ forall n, n < j - i -> nth_error l n <> Some (Some x).
Proof.
  revert i; induction l as [|h t IH]; intros i; cbn [index_from];
    [discriminate|].
  assert (forall v, h = Some v -> str_eqb v x = false ->
                    h <> Some x) as Hh.
  { intros v -> E Hv. injection Hv as ->.
    rewrite str_eqb_refl in E. discriminate. }
  assert (index_from (S i) x t = inr j -> h <> Some x ->
          i <= j
          /\ nth_error (h :: t) (j - i) = Some (Some x)
          /\ forall n, n < j - i -> nth_error (h :: t) n <> Some (Some x))
    as Hstep.
  { intros H Hne. destruct (IH _ H) as (Hle & Hnth & Hbefore).
    replace (j - i) with (S (j - S i)) by lia.
    split; [lia|]. split; [exact Hnth|].
    intros [|n] Hn; cbn [nth_error].
    - intros E. injection E as E. exact (Hne E).
    - apply Hbefore. lia. }
  destruct h as [v|].
  - destruct (str_eqb v x) eqn:E.
    + intros H. injection H as <-. apply str_eqb_eq in E. subst v.
      rewrite Nat.sub_diag. split; [lia|]. split; [reflexivity|].
      intros n Hn. lia.
    + intros H. apply Hstep; [exact H | eapply Hh; [reflexivity | exact E]].
  - intros H. apply Hstep; [exact H | discriminate].
Qed.

Lemma index_inr x l j :
  index x l = inr j ->
  nth_error l j = Some (Some x)
  /\ forall n, n < j -> nth_error l n <> Some (Some x).
Proof.
  unfold index. intros H. apply index_from_inr in H.
  rewrite Nat.sub_0_r in H. apply H.
Qed.

Lemma index_inl x l e :
  index x l = inl e -> e = ValueError /\ ~ In (Some x) l.
Proof. apply index_from_inl. Qed.

Lemma index_found x l : In (Some x) l -> exists j, index x l = inr j.
Proof.
  intros H. destruct (index x l) as [e|j] eqn:E; [|exists j; reflexivity].
  apply index_inl in E. destruct E as [_ E]. contradiction.
Qed.

Lemma read_columns_inr headers cols :
  read_columns headers = inr cols ->
  map (fun name => index name headers) REQUIRED_HEADERS
  = map inr (column_indices cols).
Proof.
  unfold read_columns, bind. cbn [REQUIRED_HEADERS map].
  destruct (index (lit "Doctor Name") headers); [discriminate|].
  destruct (index (lit "Contact Information") headers); [discriminate|].
  destruct (index (lit "Credentials/Specialty") headers); [discriminate|].
  destruct (index (lit "Registration Numbers") headers); [discriminate|].
  destruct (index (lit "Source File") headers); [discriminate|].
  intros H. injection H as <-. reflexivity.
Qed.

Lemma read_columns_finds headers cols name :
  read_columns headers = inr cols ->
  In name REQUIRED_HEADERS -> In (Some name) headers.
Proof.
  intros E Hname. apply read_columns_inr in E.
  assert (In (index name headers) (map inr (column_indices cols))) as Hin
    by (rewrite <- E;
        apply (in_map (fun n => index n headers)); exact Hname).
  apply in_map_iff in Hin. destruct Hin as (j & Hj & _).
  symmetry in Hj. apply index_inr in Hj. destruct Hj as [Hj _].
  eapply nth_error_In. exact Hj.
Qed.

Lemma read_columns_inl headers e :
  read_columns headers = inl e ->
  e = ValueError
  /\ exists name, In name REQUIRED_HEADERS /\ ~ In (Some name) headers.
Proof.
  unfold read_columns, bind.
  destruct (index (lit "Doctor Name") headers) eqn:E1;
    [intros H; injection H as <-; apply index_inl in E1;
     destruct E1 as [-> E1]; split; [reflexivity|];
     eexists; split; [|exact E1]; simpl; tauto|].
  destruct (index (lit "Contact Information") headers) eqn:E2;
    [intros H; injection H as <-; apply index_inl in E2;
     destruct E2 as [-> E2]; split; [reflexivity|];
     eexists; split; [|exact E2]; simpl; tauto|].
  destruct (index (lit "Credentials/Specialty") headers) eqn:E3;
    [intros H; injection H as <-; apply index_inl in E3;
     destruct E3 as [-> E3]; split; [reflexivity|];
     eexists; split; [|exact E3]; simpl; tauto|].
  destruct (index (lit "Registration Numbers") headers) eqn:E4;
    [intros H; injection H as <-; apply index_inl in E4;
     destruct E4 as [-> E4]; split; [reflexivity|];
     eexists; split; [|exact E4]; simpl; tauto|].
  destruct (index (lit "Source File") headers) eqn:E5;
    [intros H; injection H as <-; apply index_inl in E5;
     destruct E5 as [-> E5]; split; [reflexivity|];
     eexists; split; [|exact E5]; simpl; tauto|].
  discriminate.
Qed.

Lemma read_columns_found headers :
  (forall name, In name REQUIRED_HEADERS -> In (Some name) headers) ->
  exists cols, read_columns headers = inr cols.
Proof.
  intros H. destruct (read_columns headers) as [e|cols] eqn:E;
    [|exists cols; reflexivity].
  apply read_columns_inl in E. destruct E as (_ & name & Hin & Hnot).
  exfalso. exact (Hnot (H name Hin)).
Qed.

Lemma required_headers_distinct : NoDup REQUIRED_HEADERS.
Proof.
  assert (nodup str_eq_dec REQUIRED_HEADERS = REQUIRED_HEADERS) as <-
    by (vm_compute; reflexivity).
  apply NoDup_nodup.
Qed.

Lemma NoDup_map_some (l : list str) :
  NoDup l -> NoDup (map (fun name => Some (Some name)) l).
Proof.
  induction 1 as [|x l Hx _ IH]; simpl; constructor; [|exact IH].
  rewrite in_map_iff. intros (y & E & Hy). injection E as ->.
  exact (Hx Hy).
Qed.

Lemma extract_with_header header rows tables sheets :
  extract (((header :: rows) :: tables) :: sheets)
  = bind (read_columns (map header_value header))
         (fun cols => inr (scan cols rows)).
Proof. reflexivity. Qed.

(** X20: when the header row lacks one of the five column names, the
    run raises [ValueError] and leaves the world as it was; no row is
    scanned. *)
Theorem missing_column_raises
    (w : World) (header : Row) (rows : list Row) (tables : list Table)
    (sheets : list Sheet) (name : str) :
  numbers_file w = Some (((header :: rows) :: tables) :: sheets) ->
  In name REQUIRED_HEADERS ->
  ~ In (Some name) (map header_value header) ->
  build_directory w = (w, Raised ValueError).
Proof.
  intros Hfile Hname Hmissing. unfold build_directory.
  rewrite Hfile, extract_with_header.
  destruct (read_columns (map header_value header)) as [e|cols] eqn:E.
  - apply read_columns_inl in E. destruct E as [-> _]. reflexivity.
  - exfalso. apply Hmissing. eapply read_columns_finds; eassumption.
Qed.

(** X21: the positions [read_columns] answers point at the header
    cells with exactly the five names, each at the leftmost cell with
    its name, and they are five different positions. *)
Theorem read_columns_positions
    (headers : list (option str)) (cols : Columns) :
  read_columns headers = inr cols ->
  map (nth_error headers) (column_indices cols)
  = map (fun name => Some (Some name)) REQUIRED_HEADERS
  /\ NoDup (column_indices cols)
  /\ forall i name,
       In (i, name) (combine (column_indices cols) REQUIRED_HEADERS) ->
       forall j, j < i -> nth_error headers j <> Some (Some name).
Proof.
  intros H. apply read_columns_inr in H.
  cbn [REQUIRED_HEADERS column_indices map] in H.
  injection H as H1 H2 H3 H4 H5.
  apply index_inr in H1, H2, H3, H4, H5.
  destruct H1 as [N1 L1], H2 as [N2 L2], H3 as [N3 L3], H4 as [N4 L4],
           H5 as [N5 L5].
  assert (map (nth_error headers) (column_indices cols)
          = map (fun name => Some (Some name)) REQUIRED_HEADERS) as Hmap.
  { cbn [REQUIRED_HEADERS column_indices map].
    rewrite N1, N2, N3, N4, N5. reflexivity. }
  split; [exact Hmap|]. split.
  - apply (NoDup_map_inv (nth_error headers)). rewrite Hmap.
    apply NoDup_map_some, required_headers_distinct.
  - intros i name Hin j Hj.
    cbn [REQUIRED_HEADERS column_indices map combine] in Hin.
    destruct Hin as [E|[E|[E|[E|[E|[]]]]]]; injection E as <- <-;
      [apply L1 | apply L2 | apply L3 | apply L4 | apply L5]; exact Hj.
Qed.

(** X22: the run returns exactly when the file is there, its first
    sheet has a first table with a header row, and the header row holds
    the five column names; it then writes one entry per key of the scan
    and prints their number. *)
Theorem build_directory_returns (w : World) :
  (snd (build_directory w) = Returned <->
   exists header rows tables sheets,
     numbers_file w = Some (((header :: rows) :: tables) :: sheets)
     /\ forall name, In name REQUIRED_HEADERS ->
                     In (Some name) (map header_value header))
  /\ (snd (build_directory w) = Returned ->
      exists entries,
        output_file (fst (build_directory w)) = Some entries
        /\ NoDup (map e_id entries)
        /\ stdout (fst (build_directory w)) = stdout w ++ [length entries]).
Proof.
  unfold build_directory.
  destruct (numbers_file w) as [doc|] eqn:Hfile.
  2:{ split; [split; [discriminate|]|discriminate].
      intros (? & ? & ? & ? & H & _). discriminate. }
  destruct doc as [|[|[|header rows] tables] sheets];
    try (split; [split; [discriminate|]|discriminate];
         intros (? & ? & ? & ? & H & _); discriminate).
  rewrite extract_with_header.
  destruct (read_columns (map header_value header)) as [e|cols] eqn:E;
    cbn [bind snd fst].
  - split; [split; [discriminate|]|discriminate].
    intros (h & r & t & s & H & Hall). injection H as <- <- <- <-.
    destruct (read_columns_found _ Hall) as [cols Hc]. congruence.
  - split; [split; [intros _|reflexivity]|].
    + exists header, rows, tables, sheets. split; [reflexivity|].
      intros name Hname. eapply read_columns_finds; eassumption.
    + intros _. exists (dict_values (scan cols rows)).
      cbn [output_file stdout]. split; [reflexivity|]. split.
      * rewrite well_keyed_ids by apply scan_well_keyed.
        apply scan_from_keys_nodup. constructor.
      * unfold dict_values. rewrite length_map. reflexivity.
Qed.

(** X23: a second run after a first gives the same outcome and leaves
    the same output file; a run that returned prints the same number
    again. *)
Theorem build_directory_again (w : World) :
  let w1 := fst (build_directory w) in
  let w2 := fst (build_directory w1) in
  snd (build_directory w1) = snd (build_directory w)
  /\ output_file w2 = output_file w1
  /\ output_dir w2 = output_dir w1
  /\ (snd (build_directory w) = Returned ->
      exists n, stdout w1 = stdout w ++ [n] /\ stdout w2 = stdout w1 ++ [n]).
Proof.
  cbv zeta. unfold build_directory.
  destruct (numbers_file w) as [doc|] eqn:Hfile; cbn [fst snd].
  - destruct (extract doc) as [e|entries] eqn:E; cbn [fst snd numbers_file].
    + rewrite Hfile, E. cbn [fst snd]. repeat split. discriminate.
    + rewrite E. cbn [fst snd output_file output_dir stdout].
      repeat split. intros _. eexists. split; reflexivity.
  - rewrite Hfile. cbn [fst snd]. repeat split. discriminate.
Qed.

(** ** Rows at the edges *)

Lemma blank_at_cell_text row idx : blank_at row idx -> cell_text row idx = None.
Proof.
  unfold cell_text. intros [H|[H|[H|H]]]; try (rewrite H; reflexivity).
  apply nth_error_None in H. rewrite H. reflexivity.
Qed.

(** X24: a row with an accepted name and nothing to read in the four
    other columns (too short, or blank cells) is still taken: its entry
    has no contacts, credentials or registration numbers, the specialty
    "General Practice", an empty source file, and the id of the name
    followed by a bar. *)
Theorem blank_row_entry (cols : Columns) (row : Row) (value : str) :
  nth_error row (name_idx cols) = Some (TextCell value) ->
  looks_like_doctor (normalize_whitespace value) = true ->
  blank_at row (contact_idx cols) ->
  blank_at row (cred_idx cols) ->
  blank_at row (reg_idx cols) ->
  blank_at row (source_idx cols) ->
  candidate cols row
  = Some (mkEntry
            (firstn 12 (Sha1.hexdigest
                          (encode_utf8
                             (lower (normalize_whitespace value)
                              ++ lit "|"))))
            (normalize_whitespace value) (lit "General Practice")
            [] [] [] []).
Proof.
  intros Hname Hlook H1 H2 H3 H4. unfold candidate, normalized_or_empty.
  rewrite Hname, Hlook.
  rewrite (blank_at_cell_text _ _ H1), (blank_at_cell_text _ _ H2),
          (blank_at_cell_text _ _ H3), (blank_at_cell_text _ _ H4).
  cbn [negb split_multi_value]. unfold entry_id_of, key_basis.
  cbn [lower map]. reflexivity.
Qed.

(** X25: two accepted rows whose names agree up to letter case and
    whose first registration numbers agree have one id, whatever their
    source files and other cells, and end up in one entry. *)
Theorem same_name_same_number
    (cols : Columns) (A B : Row) (a b : Entry) (r : str)
    (ra rb : list str) :
  candidate cols A = Some a ->
  candidate cols B = Some b ->
  lower (e_name a) = lower (e_name b) ->
  e_registrationNumbers a = r :: ra ->
  e_registrationNumbers b = r :: rb ->
  e_id a = e_id b
  /\ dict_keys (scan cols [A; B]) = [e_id a].
Proof.
  intros Ha Hb Hname Hra Hrb.
  assert (e_id a = e_id b) as Hid.
  { destruct (candidate_inv _ _ _ Ha) as (_ & _ & _ & _ & _ & _ & _ & -> & _).
    destruct (candidate_inv _ _ _ Hb) as (_ & _ & _ & _ & _ & _ & _ & -> & _).
    unfold entry_id_of, key_basis. rewrite Hname, Hra, Hrb. reflexivity. }
  split; [exact Hid|].
  unfold scan. cbn [fold_left]. unfold scan_row. rewrite Ha, Hb.
  rewrite upsert_keys, <- Hid, upsert_get. reflexivity.
Qed.

(** ** The further theorems at the sample rows *)

Lemma clean_value_check x :
  x <> [] ->
  normalize_whitespace x = x ->
  forallb (fun c => negb (semi_or_newline c)) x = true ->
  clean_value x.
Proof.
  intros Hne Hfix Hall. split; [exact Hne|]. split.
  - rewrite <- Hfix. apply join_words_normal_form, str_split_words.
  - apply Forall_forall. intros c Hc.
    rewrite forallb_forall in Hall. apply negb_true_iff, Hall, Hc.
Qed.

Lemma looks_like_doctor_rejects_raw_witness :
  looks_like_doctor (lit "Acme  MEDICAL Clinic") = false.
Proof.
  apply looks_like_doctor_rejects_raw. right.
  exists (lit "medical"). split.
  - apply existsb_str_eqb. vm_compute. reflexivity.
  - apply contains_spec. vm_compute. reflexivity.
Defined.

Lemma accepted_name_has_separator_witness :
  3 <= length (lit "John Doe")
  /\ exists c, In c (lit "John Doe") /\ token_sep c = true.
Proof.
  apply accepted_name_has_separator. vm_compute. reflexivity.
Defined.

Lemma split_multi_value_fragments_witness :
  normalize_whitespace (lit "a@x.com") = lit "a@x.com"
  /\ forall c, In c (lit "a@x.com") ->
       c <> ";"%char /\ c <> "010"%char
       /\ (c = " "%char \/ In c (lit "b@x.com;  a@x.com")).
Proof.
  apply (split_multi_value_fragments (lit "b@x.com;  a@x.com")).
  vm_compute. right. left. reflexivity.
Defined.

Lemma split_multi_value_join_witness :
  split_multi_value (join [";"%char] [lit "a@x.com"; lit "b c"])
  = [lit "a@x.com"; lit "b c"].
Proof.
  apply split_multi_value_join; [reflexivity|].
  repeat constructor;
    (apply clean_value_check; [discriminate | reflexivity | reflexivity]).
Defined.

Lemma infer_specialty_cardio_witness :
  infer_specialty [lit "Dermatology"; lit "MD, CARDIOlogy"]
  = lit "Cardiology".
Proof.
  apply (infer_specialty_cardio _ (lit "MD, CARDIOlogy")).
  - right. left. reflexivity.
  - apply contains_spec. vm_compute. reflexivity.
Defined.

Lemma first_seen_wins_witness :
  exists e,
    dict_get (e_id entry_doe_b)
             (scan header_columns ([row_jane] ++ row_doe_b :: [row_doe_a]))
    = Some e
    /\ e_name e = e_name entry_doe_b
    /\ e_specialty e = e_specialty entry_doe_b
    /\ e_sourceFile e = e_sourceFile entry_doe_b.
Proof.
  apply first_seen_wins.
  - vm_compute. reflexivity.
  - intros r f [<-|[]] Hc E. vm_compute in Hc. injection Hc as <-.
    vm_compute in E. discriminate E.
Defined.

Lemma entry_collects_its_rows_witness :
  In (lit "b@x.com") (e_contacts entry_doe_ab) <->
  exists row fresh,
    In row [row_doe_a; row_doe_b]
    /\ candidate header_columns row = Some fresh
    /\ e_id fresh = lit "6d6868a3af68"
    /\ In (lit "b@x.com") (e_contacts fresh).
Proof.
  refine (proj1 (entry_collects_its_rows header_columns
                   [row_doe_a; row_doe_b] (lit "6d6868a3af68")
                   entry_doe_ab _ (lit "b@x.com"))).
  vm_compute. reflexivity.
Defined.

Lemma merged_entry_is_sorted_witness :
  exists e,
    dict_get (e_id entry_doe_a)
             (scan header_columns
                   ([] ++ row_doe_a :: [row_jane] ++ row_doe_b :: []))
    = Some e
    /\ sorted_set (e_contacts e)
    /\ sorted_set (e_credentials e)
    /\ sorted_set (e_registrationNumbers e).
Proof.
  apply (merged_entry_is_sorted header_columns [] [row_jane] []
           row_doe_a row_doe_b entry_doe_a entry_doe_b);
    vm_compute; reflexivity.
Defined.

Lemma output_entries_well_formed_witness :
  looks_like_doctor (e_name entry_jane) = true
  /\ normalize_whitespace (e_name entry_jane) = e_name entry_jane
  /\ length (e_id entry_jane) = 12
  /\ Forall is_hex (e_id entry_jane)
  /\ In (e_specialty entry_jane) SPECIALTY_LABELS.
Proof.
  apply (output_entries_well_formed header_columns [row_jane]).
  vm_compute. left. reflexivity.
Defined.

Lemma output_values_clean_witness :
  lit "555-1234" <> []
  /\ normalize_whitespace (lit "555-1234") = lit "555-1234"
  /\ forall c, In c (lit "555-1234") -> c <> ";"%char /\ c <> "010"%char.
Proof.
  apply (output_values_clean header_columns [row_jane] entry_jane).
  - vm_compute. left. reflexivity.
  - vm_compute. left. reflexivity.
Defined.

Lemma missing_column_raises_witness :
  build_directory
    (world_with (Some [[[text_row ["Doctor Name"%string]; row_jane]]]))
  = (world_with (Some [[[text_row ["Doctor Name"%string]; row_jane]]]),
     Raised ValueError).
Proof.
  apply (missing_column_raises _ (text_row ["Doctor Name"%string])
           [row_jane] [] [] (lit "Source File")).
  - reflexivity.
  - vm_compute. tauto.
  - vm_compute. intros [H|[]]. discriminate H.
Defined.

Lemma read_columns_positions_witness :
  map (nth_error (map header_value header_row))
      (column_indices header_columns)
  = map (fun name => Some (Some name)) REQUIRED_HEADERS
  /\ NoDup (column_indices header_columns).
Proof.
  destruct (read_columns_positions (map header_value header_row)
              header_columns) as (H1 & H2 & _).
  - vm_compute. reflexivity.
  - split; assumption.
Defined.

Lemma build_directory_returns_witness :
  exists entries,
    output_file
      (fst (build_directory
              (world_with (Some (document_of [row_doe_a; row_doe_b])))))
    = Some entries
    /\ NoDup (map e_id entries)
    /\ stdout
         (fst (build_directory
                 (world_with (Some (document_of [row_doe_a; row_doe_b])))))
       = stdout (world_with (Some (document_of [row_doe_a; row_doe_b])))
         ++ [length entries].
Proof.
  apply (proj2 (build_directory_returns
                  (world_with (Some (document_of [row_doe_a; row_doe_b]))))).
  vm_compute. reflexivity.
Defined.

Lemma blank_row_entry_witness :
  candidate header_columns [TextCell (lit "John  Doe"); EmptyCell]
  = Some (mkEntry
            (firstn 12 (Sha1.hexdigest
                          (encode_utf8
                             (lower (normalize_whitespace (lit "John  Doe"))
                              ++ lit "|"))))
            (normalize_whitespace (lit "John  Doe"))
            (lit "General Practice") [] [] [] []).
Proof.
  apply blank_row_entry.
  - reflexivity.
  - vm_compute. reflexivity.
  - right. right. left. reflexivity.
  - left. simpl. lia.
  - left. simpl. lia.
  - left. simpl. lia.
Defined.

Lemma same_name_same_number_witness :
  e_id entry_doe_a = e_id entry_doe_upper
  /\ dict_keys (scan header_columns [row_doe_a; row_doe_upper])
     = [e_id entry_doe_a].
Proof.
  apply (same_name_same_number header_columns row_doe_a row_doe_upper
           entry_doe_a entry_doe_upper (lit "R1") [] [lit "R2"]);
    vm_compute; reflexivity.
Defined.
